(** * pkg/exectest/helm.go: the recording test double for the helm executor

    A shallow embedding of the [Helm] double of package [exectest] and the
    properties its specification states about it.

    - Go strings are byte strings: [string].
    - A Go [error] is a nilable interface value: [option error], [None] for nil.
    - A nilable map is [option (gmap K V)]: Go tells a nil map from an empty one
      ([helm.Lists == nil]).
    - Methods on [*Helm] run in the monad [M]: they read and write the receiver,
      log every lock operation and every assignment to an observation field,
      and end either by returning or by panicking. *)

From Stdlib Require Import ZArith Lia Strings.String Strings.Ascii.
From stdpp Require Import base option list gmap strings.

Local Open Scope string_scope.
Local Open Scope list_scope.
Local Open Scope Z_scope.

(** ** Package [strings] and [fmt] *)

(** [strings.Contains(s, substr)]: [substr] occurs somewhere in [s]. *)
Fixpoint Contains (s substr : string) : bool :=
  String.prefix substr s ||
  match s with
  | EmptyString => false
  | String _ s' => Contains s' substr
  end.

(** [strings.Join(elems, sep)]. *)
Fixpoint Join (elems : list string) (sep : string) : string :=
  match elems with
  | [] => ""
  | [e] => e
  | e :: rest => e +:+ sep +:+ Join rest sep
  end.

(** [fmt.Sprintf("%v", b)] for a bool. *)
Definition Sprint_bool (b : bool) : string := if b then "true" else "false".

(** The propositional reading of [Contains]. *)
Definition substring_of (sub s : string) : Prop :=
  ∃ l r, s = l +:+ sub +:+ r.

(** ** Errors and panics *)

(** The error values [errors.New] and [fmt.Errorf] build: a message. *)
Inductive error := errorString (msg : string).

Definition Error (e : error) : string := let 'errorString msg := e in msg.

Inductive panic :=
| NilDereference                   (* runtime error: nil pointer dereference *)
| InvalidVersion (input : string). (* semver.MustParse: panic(err) *)

Inductive outcome (A : Type) :=
| Returned (a : A)
| Panicked (p : panic).
Arguments Returned {A} a.
Arguments Panicked {A} p.

(** ** github.com/Masterminds/semver/v3

    The library is imported by helm.go and lives outside the repository. The
    module below models the part the double calls: [NewVersion]/[MustParse]
    on the library's version pattern
    [v?N(.N)?(.N)?(-PRE)?(+META)?], the accessors and [Compare] with its
    derived [Equal] and [GreaterThan]. *)
Module semver.

Record Version := mkVersion {
  major : Z; minor : Z; patch : Z;   (* uint64 *)
  pre : string;
  metadata : string;
  original : string
}.

Definition is_num (c : ascii) : bool :=
  let n := Z.of_nat (nat_of_ascii c) in (48 <=? n) && (n <=? 57).

(** num, the letters and the hyphen: the constant [allowed]. *)
Definition is_allowed (c : ascii) : bool :=
  let n := Z.of_nat (nat_of_ascii c) in
  is_num c || ((65 <=? n) && (n <=? 90)) || ((97 <=? n) && (n <=? 122))
  || (n =? 45).

Definition is_dot (c : ascii) : bool := Z.of_nat (nat_of_ascii c) =? 46.

Fixpoint all_chars (p : ascii → bool) (s : string) : bool :=
  match s with
  | EmptyString => true
  | String c s' => p c && all_chars p s'
  end.

(** The longest prefix of [s] whose characters satisfy [p], and the rest. *)
Fixpoint span (p : ascii → bool) (s : string) : string * string :=
  match s with
  | EmptyString => ("", "")
  | String c s' =>
      if p c then let '(a, b) := span p s' in (String c a, b)
      else ("", s)
  end.

(** [strings.Split(s, ".")]. *)
Fixpoint split_dot (s : string) : list string :=
  match s with
  | EmptyString => [""]
  | String c s' =>
      if is_dot c then "" :: split_dot s'
      else match split_dot s' with
           | [] => [String c ""]
           | p :: ps => String c p :: ps
           end
  end.

Fixpoint digits_value (acc : Z) (s : string) : Z :=
  match s with
  | EmptyString => acc
  | String c s' => digits_value (10 * acc + (Z.of_nat (nat_of_ascii c) - 48)) s'
  end.

(** [strconv.ParseUint(s, 10, 64)]; [None] for its syntax and range errors. *)
Definition ParseUint (s : string) : option Z :=
  match s with
  | EmptyString => None
  | _ =>
      if all_chars is_num s then
        let n := digits_value 0 s in
        if n <? 2 ^ 64 then Some n else None
      else None
  end.

(** One optional dot-and-digits group of the pattern: the digits matched and
    the rest. *)
Definition dot_number (s : string) : option string * string :=
  match s with
  | String c s' =>
      if is_dot c then
        match span is_num s' with
        | (EmptyString, _) => (None, s)
        | (ds, rest) => (Some ds, rest)
        end
      else (None, s)
  | EmptyString => (None, s)
  end.

(** One optional tagged group of the pattern, the tag being a hyphen (45,
    pre-release) or a plus (43, metadata) and the body dot-separated
    non-empty identifiers over [allowed]: the body matched (empty when the
    group does not take part) and the rest. *)
Definition tagged (tag : Z) (s : string) : string * string :=
  match s with
  | String c s' =>
      if Z.of_nat (nat_of_ascii c) =? tag then
        let '(body, rest) := span (λ c, is_allowed c || is_dot c) s' in
        if forallb (λ part, negb (String.eqb part "")) (split_dot body)
        then (body, rest) else ("", s)
      else ("", s)
  | EmptyString => ("", s)
  end.

Definition strip_v (s : string) : string :=
  match s with
  | String c s' => if Z.of_nat (nat_of_ascii c) =? 118 then s' else s
  | EmptyString => s
  end.

Definition validatePrerelease (p : string) : bool :=
  forallb (λ part,
    if all_chars is_num part
    then negb ((1 <? Z.of_nat (String.length part)) && String.prefix "0" part)
    else all_chars is_allowed part) (split_dot p).

Definition validateMetadata (m : string) : bool :=
  forallb (all_chars is_allowed) (split_dot m).

(** [NewVersion(v)]; [None] stands for its error results. *)
Definition NewVersion (v : string) : option Version :=
  let '(m1, r1) := span is_num (strip_v v) in
  let '(m2, r2) := dot_number r1 in
  let '(m3, r3) := dot_number r2 in
  let '(m5, r4) := tagged 45 r3 in
  let '(m8, r5) := tagged 43 r4 in
  if negb (String.eqb r5 "") || String.eqb m1 "" then None else
  maj ← ParseUint m1;
  min ← match m2 with Some ds => ParseUint ds | None => Some 0 end;
  pat ← match m3 with Some ds => ParseUint ds | None => Some 0 end;
  if negb (String.eqb m5 "") && negb (validatePrerelease m5) then None else
  if negb (String.eqb m8 "") && negb (validateMetadata m8) then None else
  Some (mkVersion maj min pat m5 m8 v).

(** [MustParse(v)]: panics on error. *)
Definition MustParse (v : string) : outcome Version :=
  match NewVersion v with
  | Some sv => Returned sv
  | None => Panicked (InvalidVersion v)
  end.

Definition compareSegment (v o : Z) : comparison := v ?= o.

Definition comparePrePart (s o : string) : comparison :=
  if String.eqb s o then Eq
  else if String.eqb s "" then Lt
  else if String.eqb o "" then Gt
  else match ParseUint o, ParseUint s with
       | None, None => if String.ltb o s then Gt else Lt
       | None, Some _ => Lt
       | Some _, None => Gt
       | Some oi, Some si => if oi <? si then Gt else Lt
       end.

Fixpoint first_difference (ds : list comparison) : comparison :=
  match ds with
  | [] => Eq
  | Eq :: rest => first_difference rest
  | d :: _ => d
  end.

(** The loop runs over the longer of the two splits; a part past the end of
    the shorter one is read as the empty string. *)
Definition comparePrerelease (v o : string) : comparison :=
  let sparts := split_dot v in
  let oparts := split_dot o in
  let l := Nat.max (length sparts) (length oparts) in
  first_difference
    (map (λ i, comparePrePart (nth i sparts "") (nth i oparts "")) (seq 0 l)).

Definition Compare (v o : Version) : comparison :=
  match compareSegment (major v) (major o) with
  | Eq =>
      match compareSegment (minor v) (minor o) with
      | Eq =>
          match compareSegment (patch v) (patch o) with
          | Eq =>
              if String.eqb (pre v) "" && String.eqb (pre o) "" then Eq
              else if String.eqb (pre v) "" then Gt
              else if String.eqb (pre o) "" then Lt
              else comparePrerelease (pre v) (pre o)
          | d => d
          end
      | d => d
      end
  | d => d
  end.

Definition Equal (v o : Version) : bool :=
  match Compare v o with Eq => true | _ => false end.

Definition GreaterThan (v o : Version) : bool :=
  match Compare v o with Gt => true | _ => false end.

End semver.

(** ** Data model *)

Record ListKey := mkListKey { lk_Filter : string; lk_Flags : string }.

(** [ListKey.String()]: ["listkey(filter=%s,flags=%s)"]. *)
Definition ListKey_String (k : ListKey) : string :=
  "listkey(filter=" +:+ lk_Filter k +:+ ",flags=" +:+ lk_Flags k +:+ ")".

Record DiffKey := mkDiffKey { dk_Name : string; dk_Chart : string; dk_Flags : string }.

(** [%v] of a [DiffKey], which has no [String] method: the fields in braces,
    separated by spaces. *)
Definition DiffKey_v (k : DiffKey) : string :=
  "{" +:+ dk_Name k +:+ " " +:+ dk_Chart k +:+ " " +:+ dk_Flags k +:+ "}".

Record Release := mkRelease { Name : string; Flags : list string }.

(** A [*sync.Mutex] is known by its address: two fields may hold the same one. *)
Definition Mutex := positive.

(** [helmexec.Version]: three [int] fields. *)
Record helmexec_Version := mkHelmexecVersion { Major : Z; Minor : Z; Patch : Z }.

(** [chart.Metadata], of which the double sets [Version] only. *)
Record chart_Metadata := mkMetadata { md_Version : string }.

Global Instance ListKey_eq_dec : EqDecision ListKey.
Proof. solve_decision. Defined.

Global Instance DiffKey_eq_dec : EqDecision DiffKey.
Proof. solve_decision. Defined.

Global Instance ListKey_countable : Countable ListKey :=
  inj_countable' (λ k, (lk_Filter k, lk_Flags k))
                 (λ p, mkListKey p.1 p.2)
                 (λ k, match k with mkListKey _ _ => eq_refl end).

Global Instance DiffKey_countable : Countable DiffKey :=
  inj_countable' (λ k, (dk_Name k, dk_Chart k, dk_Flags k))
                 (λ p, mkDiffKey p.1.1 p.1.2 p.2)
                 (λ k, match k with mkDiffKey _ _ _ => eq_refl end).

(** A value of type [func(string) error]: nil, or code that returns an error
    value or panics. It is taken not to reach back into the double. *)
Definition callback_func : Type := option (string → outcome (option error)).

(** The receiver. *)
Record Helm := mkHelm {
  Charts : list string;
  Repo : list string;
  Releases : list Release;
  Deleted : list Release;
  Linted : list Release;
  Templated : list Release;
  Lists : option (gmap ListKey string);
  Diffs : option (gmap DiffKey (option error));
  Diffed : list Release;
  FailOnUnexpectedDiff : bool;
  FailOnUnexpectedList : bool;
  Version : option semver.Version;
  UpdateDepsCallbacks : option (gmap string callback_func);
  DiffMutex : option Mutex;
  ChartsMutex : option Mutex;
  ReleasesMutex : option Mutex;
  Helm3 : bool
}.

(** The zero value [Helm{}]. *)
Definition Helm_zero : Helm :=
  mkHelm [] [] [] [] [] [] None None [] false false None None None None None false.

(** The fields the methods assign to. *)
Inductive field := FCharts | FRepo | FReleases | FDeleted | FLinted | FTemplated | FDiffed.

Global Instance field_eq_dec : EqDecision field.
Proof. solve_decision. Defined.

Definition assign (f : field) : match f with
                                | FCharts | FRepo => list string
                                | _ => list Release
                                end → Helm → Helm :=
  match f with
  | FCharts => λ v h,
      mkHelm v (Repo h) (Releases h) (Deleted h) (Linted h) (Templated h)
        (Lists h) (Diffs h) (Diffed h) (FailOnUnexpectedDiff h)
        (FailOnUnexpectedList h) (Version h) (UpdateDepsCallbacks h)
        (DiffMutex h) (ChartsMutex h) (ReleasesMutex h) (Helm3 h)
  | FRepo => λ v h,
      mkHelm (Charts h) v (Releases h) (Deleted h) (Linted h) (Templated h)
        (Lists h) (Diffs h) (Diffed h) (FailOnUnexpectedDiff h)
        (FailOnUnexpectedList h) (Version h) (UpdateDepsCallbacks h)
        (DiffMutex h) (ChartsMutex h) (ReleasesMutex h) (Helm3 h)
  | FReleases => λ v h,
      mkHelm (Charts h) (Repo h) v (Deleted h) (Linted h) (Templated h)
        (Lists h) (Diffs h) (Diffed h) (FailOnUnexpectedDiff h)
        (FailOnUnexpectedList h) (Version h) (UpdateDepsCallbacks h)
        (DiffMutex h) (ChartsMutex h) (ReleasesMutex h) (Helm3 h)
  | FDeleted => λ v h,
      mkHelm (Charts h) (Repo h) (Releases h) v (Linted h) (Templated h)
        (Lists h) (Diffs h) (Diffed h) (FailOnUnexpectedDiff h)
        (FailOnUnexpectedList h) (Version h) (UpdateDepsCallbacks h)
        (DiffMutex h) (ChartsMutex h) (ReleasesMutex h) (Helm3 h)
  | FLinted => λ v h,
      mkHelm (Charts h) (Repo h) (Releases h) (Deleted h) v (Templated h)
        (Lists h) (Diffs h) (Diffed h) (FailOnUnexpectedDiff h)
        (FailOnUnexpectedList h) (Version h) (UpdateDepsCallbacks h)
        (DiffMutex h) (ChartsMutex h) (ReleasesMutex h) (Helm3 h)
  | FTemplated => λ v h,
      mkHelm (Charts h) (Repo h) (Releases h) (Deleted h) (Linted h) v
        (Lists h) (Diffs h) (Diffed h) (FailOnUnexpectedDiff h)
        (FailOnUnexpectedList h) (Version h) (UpdateDepsCallbacks h)
        (DiffMutex h) (ChartsMutex h) (ReleasesMutex h) (Helm3 h)
  | FDiffed => λ v h,
      mkHelm (Charts h) (Repo h) (Releases h) (Deleted h) (Linted h) (Templated h)
        (Lists h) (Diffs h) v (FailOnUnexpectedDiff h)
        (FailOnUnexpectedList h) (Version h) (UpdateDepsCallbacks h)
        (DiffMutex h) (ChartsMutex h) (ReleasesMutex h) (Helm3 h)
  end.

(** ** The monad of methods on [*Helm] *)

Inductive event :=
| EvLock (m : Mutex)
| EvUnlock (m : Mutex)
| EvAssign (f : field).

Global Instance event_eq_dec : EqDecision event.
Proof. solve_decision. Defined.

Record Run (A : Type) := mkRun {
  result : outcome A;   (* what the call hands back *)
  after : Helm;         (* the receiver when the call ends *)
  log : list event      (* what the call did, in order *)
}.
Arguments mkRun {A} result after log.
Arguments result {A} r.
Arguments after {A} r.
Arguments log {A} r.

Definition M (A : Type) : Type := Helm → Run A.

Global Instance M_ret : MRet M := λ A a h, mkRun (Returned a) h [].

Global Instance M_bind : MBind M := λ A B k m h,
  let r := m h in
  match result r with
  | Returned a =>
      let r' := k a (after r) in
      mkRun (result r') (after r') (log r ++ log r')
  | Panicked p => mkRun (Panicked p) (after r) (log r)
  end.

Definition get : M Helm := λ h, mkRun (Returned h) h [].
Definition store f v : M unit := λ h, mkRun (Returned tt) (assign f v h) [EvAssign f].
Definition emit (e : event) : M unit := λ h, mkRun (Returned tt) h [e].
Definition throw {A} (p : panic) : M A := λ h, mkRun (Panicked p) h [].
Definition lift {A} (o : outcome A) : M A := λ h, mkRun o h [].

(** Dereferencing a pointer: a nil one panics. *)
Definition deref {A} (p : option A) : M A :=
  match p with
  | Some v => mret v
  | None => throw NilDereference
  end.

(** [defer d] ahead of [body]: [d] runs when [body] ends, also by a panic. *)
Definition deferred {A} (d : M unit) (body : M A) : M A := λ h,
  let r := body h in
  let r' := d (after r) in
  mkRun (result r) (after r') (log r ++ log r').

(** The comma-ok form [v, ok := m[k]]: a miss yields the zero value. *)
Definition index_ok `{Countable K} {V} (zero : V) (m : gmap K V) (k : K) : V * bool :=
  match m !! k with
  | Some v => (v, true)
  | None => (zero, false)
  end.

(** [int(x)] of a [uint64] on a 64-bit platform: the same bits, read as signed. *)
Definition int_of_uint64 (x : Z) : Z := (x + 2 ^ 63) mod 2 ^ 64 - 2 ^ 63.

(** [range m] visits the keys of [m] once each, in an order the language
    leaves open: any listing [ks] of the keys is a possible run of the loop. *)
Definition ranges_over `{Countable K} {V} (ks : list K) (m : gmap K V) : Prop :=
  ks ≡ₚ (map_to_list m).*1.

(** ** The methods, in the order of helm.go

    The [helmexec.HelmContext] argument of some methods is never read and is
    left out. *)

Definition UpdateDeps (chart : string) : M (option error) :=
  if Contains chart "error" then
    mret (Some (errorString ("simulated UpdateDeps failure for chart: " +:+ chart)))
  else
    h ← get;
    store FCharts (Charts h ++ [chart]);;
    h ← get;
    match UpdateDepsCallbacks h with
    | Some callbacks =>
        let '(callback, exists_) := index_ok None callbacks chart in
        if exists_ then
          f ← deref callback;
          err ← lift (f chart);
          match err with
          | Some err => mret (Some err)
          | None => mret None
          end
        else mret None
    | None => mret None
    end.

Definition BuildDeps (name chart : string) (flags : list string) : M (option error) :=
  if Contains chart "error" then mret (Some (errorString "error"))
  else
    h ← get;
    store FCharts (Charts h ++ [chart]);;
    mret None.

Definition SetExtraArgs (args : list string) : M unit := mret tt.
Definition SetHelmBinary (bin : string) : M unit := mret tt.
Definition SetEnableLiveOutput (enableLiveOutput : bool) : M unit := mret tt.
Definition SetDisableForceUpdate (forceUpdate : bool) : M unit := mret tt.

Definition AddRepo (name repository cafile certfile keyfile username password
                    managed : string) (passCredentials skipTLSVerify : bool)
  : M (option error) :=
  store FRepo [name; repository; cafile; certfile; keyfile; username; password;
               managed; Sprint_bool passCredentials; Sprint_bool skipTLSVerify];;
  mret None.

Definition UpdateRepo : M (option error) := mret None.

Definition RegistryLogin (name username password caFile certFile keyFile : string)
                         (skipTLSVerify : bool) : M (option error) := mret None.

Definition sync (m : option Mutex) (f : M unit) : M unit :=
  match m with
  | Some mu => emit (EvLock mu);; deferred (emit (EvUnlock mu)) f
  | None => f
  end.

Definition SyncRelease (name chart : string) (flags : list string) : M (option error) :=
  if Contains name "error" then mret (Some (errorString "error"))
  else
    h ← get;
    sync (ReleasesMutex h)
      (h ← get; store FReleases (Releases h ++ [mkRelease name flags]));;
    sync (ChartsMutex h)
      (h ← get; store FCharts (Charts h ++ [chart]));;
    mret None.

Definition DiffRelease (name chart : string) (suppressDiff : bool)
                       (flags : list string) : M (option error) :=
  h ← get;
  (if DiffMutex h is Some mu then emit (EvLock mu) else mret tt);;
  h ← get;
  store FDiffed (Diffed h ++ [mkRelease name flags]);;
  (if DiffMutex h is Some mu then emit (EvUnlock mu) else mret tt);;
  match Diffs h with
  | None => mret None
  | Some diffs =>
      let key := mkDiffKey name chart (Join flags "") in
      let '(err, ok) := index_ok None diffs key in
      if negb ok && FailOnUnexpectedDiff h then
        mret (Some (errorString ("unexpected diff with key: " +:+ DiffKey_v key)))
      else mret err
  end.

Definition ReleaseStatus (release : string) (flags : list string) : M (option error) :=
  if Contains release "error" then mret (Some (errorString "error"))
  else
    h ← get;
    store FReleases (Releases h ++ [mkRelease release flags]);;
    mret None.

Definition DeleteRelease (name : string) (flags : list string) : M (option error) :=
  if Contains name "error" then mret (Some (errorString "error"))
  else
    h ← get;
    store FDeleted (Deleted h ++ [mkRelease name flags]);;
    mret None.

(** [range_keys] is the order in which this call's [range helm.Lists] yields
    the keys; it is read on the strict miss only. *)
Definition List (range_keys : list ListKey) (filter : string) (flags : list string)
  : M (string * option error) :=
  let key := mkListKey filter (Join flags "") in
  h ← get;
  match Lists h with
  | None => mret ("dummy non-empty helm-list output", None)
  | Some lists =>
      let '(res, ok) := index_ok "" lists key in
      if negb ok && FailOnUnexpectedList h then
        let keys := map ListKey_String range_keys in
        mret ("", Some (errorString ("unexpected list key: " +:+ ListKey_String key
                                     +:+ " not found in " +:+ Join keys ", ")))
      else mret (res, None)
  end.

Definition DecryptSecret (name : string) (flags : list string)
  : M (string * option error) := mret ("", None).

Definition TestRelease (name : string) (flags : list string) : M (option error) :=
  if Contains name "error" then mret (Some (errorString "error"))
  else
    h ← get;
    store FReleases (Releases h ++ [mkRelease name flags]);;
    mret None.

Definition Fetch (chart : string) (flags : list string) : M (option error) := mret None.

Definition Lint (name chart : string) (flags : list string) : M (option error) :=
  if Contains name "error" then mret (Some (errorString "error"))
  else
    h ← get;
    store FLinted (Linted h ++ [mkRelease name flags]);;
    mret None.

Definition TemplateRelease (name chart : string) (flags : list string) : M (option error) :=
  if Contains name "error" then mret (Some (errorString "error"))
  else
    h ← get;
    store FTemplated (Templated h ++ [mkRelease name flags]);;
    mret None.

Definition ChartPull (chart path : string) (flags : list string) : M (option error) :=
  mret None.

Definition ChartExport (chart path : string) : M (option error) := mret None.

Definition IsHelm3 : M bool :=
  h ← get;
  match Version h with
  | None => mret (Helm3 h)
  | Some v => mret (semver.major v =? 3)
  end.

Definition GetVersion : M helmexec_Version :=
  h ← get;
  v ← deref (Version h);
  mret (mkHelmexecVersion (int_of_uint64 (semver.major v))
                          (int_of_uint64 (semver.minor v))
                          (int_of_uint64 (semver.patch v))).

Definition IsVersionAtLeast (versionStr : string) : M bool :=
  h ← get;
  match Version h with
  | None => mret false
  | Some v =>
      ver ← lift (semver.MustParse versionStr);
      mret (semver.Equal v ver || semver.GreaterThan v ver)
  end.

Definition ShowChart (chartPath : string) : M (chart_Metadata * option error) :=
  if String.eqb chartPath "../../foo-bar" then mret (mkMetadata "3.2.0", None)
  else mret (mkMetadata "", Some (errorString "fake test error")).

(** ** The whole method set as one type of calls

    A test drives the double by a sequence of calls; [call] runs one and
    forgets the static type of what it hands back. *)

Inductive Call :=
| CUpdateDeps (chart : string)
| CBuildDeps (name chart : string) (flags : list string)
| CSetExtraArgs (args : list string)
| CSetHelmBinary (bin : string)
| CSetEnableLiveOutput (enableLiveOutput : bool)
| CSetDisableForceUpdate (forceUpdate : bool)
| CAddRepo (name repository cafile certfile keyfile username password
            managed : string) (passCredentials skipTLSVerify : bool)
| CUpdateRepo
| CRegistryLogin (name username password caFile certFile keyFile : string)
                 (skipTLSVerify : bool)
| CSyncRelease (name chart : string) (flags : list string)
| CDiffRelease (name chart : string) (suppressDiff : bool) (flags : list string)
| CReleaseStatus (release : string) (flags : list string)
| CDeleteRelease (name : string) (flags : list string)
| CList (range_keys : list ListKey) (filter : string) (flags : list string)
| CDecryptSecret (name : string) (flags : list string)
| CTestRelease (name : string) (flags : list string)
| CFetch (chart : string) (flags : list string)
| CLint (name chart : string) (flags : list string)
| CTemplateRelease (name chart : string) (flags : list string)
| CChartPull (chart path : string) (flags : list string)
| CChartExport (chart path : string)
| CIsHelm3
| CGetVersion
| CIsVersionAtLeast (versionStr : string)
| CShowChart (chartPath : string).

Inductive Value :=
| VNone
| VError (err : option error)
| VString (s : string) (err : option error)
| VBool (b : bool)
| VVersion (v : helmexec_Version)
| VMetadata (md : chart_Metadata) (err : option error).

Definition call (c : Call) : M Value :=
  match c with
  | CUpdateDeps chart => e ← UpdateDeps chart; mret (VError e)
  | CBuildDeps name chart flags => e ← BuildDeps name chart flags; mret (VError e)
  | CSetExtraArgs args => SetExtraArgs args;; mret VNone
  | CSetHelmBinary bin => SetHelmBinary bin;; mret VNone
  | CSetEnableLiveOutput b => SetEnableLiveOutput b;; mret VNone
  | CSetDisableForceUpdate b => SetDisableForceUpdate b;; mret VNone
  | CAddRepo name repository cafile certfile keyfile username password managed
             passCredentials skipTLSVerify =>
      e ← AddRepo name repository cafile certfile keyfile username password
                  managed passCredentials skipTLSVerify;
      mret (VError e)
  | CUpdateRepo => e ← UpdateRepo; mret (VError e)
  | CRegistryLogin name username password caFile certFile keyFile skipTLSVerify =>
      e ← RegistryLogin name username password caFile certFile keyFile skipTLSVerify;
      mret (VError e)
  | CSyncRelease name chart flags => e ← SyncRelease name chart flags; mret (VError e)
  | CDiffRelease name chart suppressDiff flags =>
      e ← DiffRelease name chart suppressDiff flags; mret (VError e)
  | CReleaseStatus release flags => e ← ReleaseStatus release flags; mret (VError e)
  | CDeleteRelease name flags => e ← DeleteRelease name flags; mret (VError e)
  | CList range_keys filter flags =>
      '(s, e) ← List range_keys filter flags; mret (VString s e)
  | CDecryptSecret name flags => '(s, e) ← DecryptSecret name flags; mret (VString s e)
  | CTestRelease name flags => e ← TestRelease name flags; mret (VError e)
  | CFetch chart flags => e ← Fetch chart flags; mret (VError e)
  | CLint name chart flags => e ← Lint name chart flags; mret (VError e)
  | CTemplateRelease name chart flags =>
      e ← TemplateRelease name chart flags; mret (VError e)
  | CChartPull chart path flags => e ← ChartPull chart path flags; mret (VError e)
  | CChartExport chart path => e ← ChartExport chart path; mret (VError e)
  | CIsHelm3 => b ← IsHelm3; mret (VBool b)
  | CGetVersion => v ← GetVersion; mret (VVersion v)
  | CIsVersionAtLeast versionStr => b ← IsVersionAtLeast versionStr; mret (VBool b)
  | CShowChart chartPath => '(md, e) ← ShowChart chartPath; mret (VMetadata md e)
  end.

(** A test body: the calls one after the other; a panic ends it. *)
Fixpoint calls (cs : list Call) : M (list Value) :=
  match cs with
  | [] => mret []
  | c :: cs' => v ← call c; vs ← calls cs'; mret (v :: vs)
  end.

(** The string a method looks the sentinel up in, for the methods that do. *)
Definition sentinel_input (c : Call) : option string :=
  match c with
  | CUpdateDeps chart | CBuildDeps _ chart _ => Some chart
  | CSyncRelease name _ _ | CReleaseStatus name _ | CDeleteRelease name _
  | CTestRelease name _ | CLint name _ _ | CTemplateRelease name _ _ => Some name
  | _ => None
  end.

(** ** Which lock guards which list, and whether a run respects it *)

Definition guard (h : Helm) (f : field) : option Mutex :=
  match f with
  | FCharts => ChartsMutex h
  | FReleases => ReleasesMutex h
  | FDiffed => DiffMutex h
  | _ => None
  end.

Fixpoint release_lock (m : Mutex) (held : list Mutex) : list Mutex :=
  match held with
  | [] => []
  | m' :: rest => if decide (m = m') then rest else m' :: release_lock m rest
  end.

(** Every assignment of the run [tr] to a field whose lock is configured in
    [h] happens while that lock is among the [held] ones. *)
Fixpoint guarded (h : Helm) (held : list Mutex) (tr : list event) : bool :=
  match tr with
  | [] => true
  | EvLock m :: tr' => guarded h (m :: held) tr'
  | EvUnlock m :: tr' => guarded h (release_lock m held) tr'
  | EvAssign f :: tr' =>
      match guard h f with
      | Some m => bool_decide (m ∈ held)
      | None => true
      end && guarded h held tr'
  end.

(** ** What the specification states, and the doubles of its scenarios *)

(** The claim for one call: it fails, logs nothing and the list [obs] it
    would have recorded into is as long as before. *)
Definition fails_without_recording {A} (m : M (option error)) (obs : Helm → list A)
                                   (h : Helm) : Prop :=
  (∃ e, result (m h) = Returned (Some e)) ∧
  log (m h) = [] ∧
  length (obs (after (m h))) = length (obs h).

(** The claim for one call on a double whose expectations are [diffs]. The
    strict miss is asked to name the unmatched key and, for every configured
    key, at least that key's release name. *)
Definition diff_resolution_as_claimed (diffs : gmap DiffKey (option error))
    (h : Helm) (name chart : string) (suppressDiff : bool) (flags : list string)
  : Prop :=
  let r := DiffRelease name chart suppressDiff flags h in
  let key := mkDiffKey name chart (Join flags "") in
  Diffed (after r) = Diffed h ++ [mkRelease name flags] ∧
  match diffs !! key with
  | Some err => result r = Returned err
  | None =>
      if FailOnUnexpectedDiff h then
        ∃ msg, result r = Returned (Some (errorString msg)) ∧
               substring_of (DiffKey_v key) msg ∧
               ∀ k, is_Some (diffs !! k) → substring_of (dk_Name k) msg
      else result r = Returned None
  end.

Definition scenario_diffs : gmap DiffKey (option error) :=
  {[ mkDiffKey "app" "chart-x" "--flag" := None ]}.

Definition scenario_lists : gmap ListKey string :=
  {[ mkListKey "^app$" "--kube-contextdefault" := "app-row";
     mkListKey "^db$" "" := "db-row" ]}.

(** The diff scenario of the specification, one expectation in strict mode,
    next to two list expectations, strict as well. *)
Definition scenario_helm : Helm :=
  mkHelm [] [] [] [] [] [] (Some scenario_lists) (Some scenario_diffs) [] true true
         None None None None None false.

(** Precedence of versions as the library decides it: [v] is [o] or above. *)
Definition version_ge (v o : semver.Version) : Prop := semver.Compare v o ≠ Lt.

(** The order of the triples (major, minor, patch), first difference wins. *)
Definition triple_compare (v o : semver.Version) : comparison :=
  match semver.major v ?= semver.major o with
  | Eq =>
      match semver.minor v ?= semver.minor o with
      | Eq => semver.patch v ?= semver.patch o
      | d => d
      end
  | d => d
  end.

(** The double as a test sets it up for a version query:
    [Helm{Version: semver.MustParse(version)}]. *)
Definition helm_at (version : string) : Helm :=
  mkHelm [] [] [] [] [] [] None None [] false false
         (semver.NewVersion version) None None None None false.

(** *** Precedence as Semantic Versioning 2.0.0 words it (item 11)

    Written from the text of the standard, not from the library, to compare
    the library's [Compare] with. An identifier of a pre-release tag is
    numeric when it is made of digits only. *)
Definition numeric_identifier (s : string) : bool :=
  negb (String.eqb s "") && semver.all_chars semver.is_num s.

(** Numeric identifiers compare as numbers, the others as ASCII strings, and a
    numeric one is below any other. *)
Definition identifier_compare (a b : string) : comparison :=
  match numeric_identifier a, numeric_identifier b with
  | true, true => semver.digits_value 0 a ?= semver.digits_value 0 b
  | true, false => Lt
  | false, true => Gt
  | false, false => String.compare a b
  end.

(** Identifier by identifier from the left, the first difference wins; when
    one list ends first, the longer one is above. *)
Fixpoint identifiers_compare (ps qs : list string) : comparison :=
  match ps, qs with
  | [], [] => Eq
  | [], _ :: _ => Lt
  | _ :: _, [] => Gt
  | p :: ps', q :: qs' =>
      match identifier_compare p q with
      | Eq => identifiers_compare ps' qs'
      | d => d
      end
  end.

(** The triples first; on equal triples a version without pre-release tag is
    above one with a tag, and two tags compare by their dot-separated
    identifiers. Build metadata plays no part. *)
Definition precedence (v o : semver.Version) : comparison :=
  match triple_compare v o with
  | Eq =>
      match semver.pre v, semver.pre o with
      | "", "" => Eq
      | "", _ => Gt
      | _, "" => Lt
      | p, q => identifiers_compare (semver.split_dot p) (semver.split_dot q)
      end
  | d => d
  end.

(** The decimal digit a character stands for. *)
Definition digit (c : ascii) : Z := Z.of_nat (nat_of_ascii c) - 48.

(** No 0 ahead of further characters. *)
Definition no_leading_zero (s : string) : bool :=
  negb ((1 <? Z.of_nat (String.length s)) && String.prefix "0" s).

(** A pre-release identifier as the version pattern admits it and
    [strconv.ParseUint] can read it: not empty and, when numeric, without
    leading zero and within uint64. *)
Definition canonical_identifier (s : string) : bool :=
  negb (String.eqb s "") &&
  (if semver.all_chars semver.is_num s
   then no_leading_zero s && (semver.digits_value 0 s <? 2 ^ 64)
   else true).

(** A pre-release tag of canonical identifiers, or no tag at all. *)
Definition canonical_prerelease (p : string) : bool :=
  String.eqb p "" || forallb canonical_identifier (semver.split_dot p).

(** The claim of C6 for one double and one argument, where the argument
    parses: true exactly when a version is configured whose triple is that of
    the argument or above. *)
Definition at_least_as_claimed (h : Helm) (versionStr : string) : Prop :=
  ∀ ver, semver.NewVersion versionStr = Some ver →
  (result (IsVersionAtLeast versionStr h) = Returned true ↔
   ∃ v, Version h = Some v ∧ triple_compare v ver ≠ Lt).

(** The claim of C7 for one double and one argument. *)
Definition fatal_when_malformed (h : Helm) (versionStr : string) : Prop :=
  semver.NewVersion versionStr = None →
  ∃ p, result (IsVersionAtLeast versionStr h) = Panicked p.

(** [h'] keeps all that [h] recorded in the appended lists, in place, and all
    of its configuration. *)
Record extends (h h' : Helm) : Prop := mkExtends {
  ext_Charts : Charts h `prefix_of` Charts h';
  ext_Releases : Releases h `prefix_of` Releases h';
  ext_Deleted : Deleted h `prefix_of` Deleted h';
  ext_Linted : Linted h `prefix_of` Linted h';
  ext_Templated : Templated h `prefix_of` Templated h';
  ext_Diffed : Diffed h `prefix_of` Diffed h';
  ext_Lists : Lists h' = Lists h;
  ext_Diffs : Diffs h' = Diffs h;
  ext_FailOnUnexpectedDiff : FailOnUnexpectedDiff h' = FailOnUnexpectedDiff h;
  ext_FailOnUnexpectedList : FailOnUnexpectedList h' = FailOnUnexpectedList h;
  ext_Version : Version h' = Version h;
  ext_UpdateDepsCallbacks : UpdateDepsCallbacks h' = UpdateDepsCallbacks h;
  ext_DiffMutex : DiffMutex h' = DiffMutex h;
  ext_ChartsMutex : ChartsMutex h' = ChartsMutex h;
  ext_ReleasesMutex : ReleasesMutex h' = ReleasesMutex h;
  ext_Helm3 : Helm3 h' = Helm3 h
}.

(** The claim of C9 for the Repo field and one call. *)
Definition keeps_Repo_records (c : Call) (h : Helm) : Prop :=
  ∀ x, x ∈ Repo h → x ∈ Repo (after (call c h)).

(** Two results of List that differ at most in the order in which the message
    of a strict miss enumerates the configured keys. *)
Definition same_up_to_enumeration (r1 r2 : outcome (string * option error)) : Prop :=
  r1 = r2 ∨
  ∃ head ks1 ks2, ks1 ≡ₚ ks2 ∧
    r1 = Returned ("", Some (errorString
           (head +:+ Join (map ListKey_String ks1) ", "))) ∧
    r2 = Returned ("", Some (errorString
           (head +:+ Join (map ListKey_String ks2) ", "))).

(** The claim of C10 for List: on one double, two calls whose flag lists have
    the same concatenation return the same, each call ranging over the map in
    an order of its own. *)
Definition flags_indistinguishable_as_claimed
    (h : Helm) (filter : string) (flags1 flags2 : list string) : Prop :=
  ∀ lists ks1 ks2,
    Lists h = Some lists → ranges_over ks1 lists → ranges_over ks2 lists →
    result (List ks1 filter flags1 h) = result (List ks2 filter flags2 h).

(** The double with the lock for the Releases list configured. *)
Definition helm_with_ReleasesMutex (mu : Mutex) : Helm :=
  mkHelm [] [] [] [] [] [] None None [] false false None None None None
         (Some mu) false.

(** ** Concurrent calls of DiffRelease

    Lines 121-127 of helm.go, as the atomic steps one goroutine takes: Lock
    when a mutex is configured, the append as a load of [helm.Diffed] followed
    by a store, Unlock when a mutex is configured. What follows in the method
    only reads. A scheduler picks which goroutine moves next. *)

Inductive pc :=
| AtLock
| AtLoad
| AtStore (seen : list Release)
| AtUnlock
| Finished.

Record machine := mkMachine {
  diffed : list Release;              (* helm.Diffed *)
  locked : bool;                      (* the state of helm.DiffMutex *)
  goroutines : list (Release * pc)    (* each call: its record, where it stands *)
}.

Definition start (d0 recs : list Release) : machine :=
  mkMachine d0 false ((λ rec, (rec, AtLock)) <$> recs).

(** Goroutine [i] takes its next step; [None] when it has none to take: it
    waits for the mutex, has finished or does not exist. *)
Definition step (configured : bool) (i : nat) (s : machine) : option machine :=
  match goroutines s !! i with
  | None => None
  | Some (rec, p) =>
      let move p' := <[i := (rec, p')]> (goroutines s) in
      match p with
      | AtLock =>
          if configured then
            if locked s then None
            else Some (mkMachine (diffed s) true (move AtLoad))
          else Some (mkMachine (diffed s) (locked s) (move AtLoad))
      | AtLoad => Some (mkMachine (diffed s) (locked s) (move (AtStore (diffed s))))
      | AtStore seen => Some (mkMachine (seen ++ [rec]) (locked s) (move AtUnlock))
      | AtUnlock =>
          Some (mkMachine (diffed s) (if configured then false else locked s)
                          (move Finished))
      | Finished => None
      end
  end.

Fixpoint schedule (configured : bool) (order : list nat) (s : machine)
  : option machine :=
  match order with
  | [] => Some s
  | i :: order' => s' ← step configured i s; schedule configured order' s'
  end.

Definition finished (p : pc) : bool := if p is Finished then true else false.

Definition all_finished (s : machine) : bool :=
  forallb (λ g, finished g.2) (goroutines s).

Definition holds_lock (p : pc) : bool :=
  match p with
  | AtLoad | AtStore _ | AtUnlock => true
  | AtLock | Finished => false
  end.

Definition appended (p : pc) : bool :=
  match p with
  | AtUnlock | Finished => true
  | AtLock | AtLoad | AtStore _ => false
  end.

(** The records of the goroutines that are past their store. *)
Definition records (gs : list (Release * pc)) : list Release :=
  omap (λ g, if appended g.2 then Some g.1 else None) gs.

(** What the mutex buys, for calls [recs] started on the list [d0]. *)
Record mutex_inv (d0 recs : list Release) (s : machine) : Prop := mkMutexInv {
  inv_calls : (goroutines s).*1 = recs;
  inv_diffed : diffed s ≡ₚ d0 ++ records (goroutines s);
  inv_free : locked s = false →
             ∀ i g, goroutines s !! i = Some g → holds_lock g.2 = false;
  inv_holder : ∀ i j g g', goroutines s !! i = Some g → goroutines s !! j = Some g' →
               holds_lock g.2 = true → holds_lock g'.2 = true → i = j;
  inv_held : ∀ i g, goroutines s !! i = Some g → holds_lock g.2 = true →
             locked s = true;
  inv_locked : locked s = true →
               ∃ i g, goroutines s !! i = Some g ∧ holds_lock g.2 = true;
  inv_seen : ∀ i rec seen, goroutines s !! i = Some (rec, AtStore seen) →
             seen = diffed s
}.

(** ** The call history, read list by list

    What one call leaves in each observation field when it runs. *)

Definition history_Charts (c : Call) : option string :=
  match c with
  | CUpdateDeps chart | CBuildDeps _ chart _ =>
      if Contains chart "error" then None else Some chart
  | CSyncRelease name chart _ =>
      if Contains name "error" then None else Some chart
  | _ => None
  end.

Definition history_Releases (c : Call) : option Release :=
  match c with
  | CSyncRelease name _ flags | CReleaseStatus name flags | CTestRelease name flags =>
      if Contains name "error" then None else Some (mkRelease name flags)
  | _ => None
  end.

Definition history_Deleted (c : Call) : option Release :=
  match c with
  | CDeleteRelease name flags =>
      if Contains name "error" then None else Some (mkRelease name flags)
  | _ => None
  end.

Definition history_Linted (c : Call) : option Release :=
  match c with
  | CLint name _ flags =>
      if Contains name "error" then None else Some (mkRelease name flags)
  | _ => None
  end.

Definition history_Templated (c : Call) : option Release :=
  match c with
  | CTemplateRelease name _ flags =>
      if Contains name "error" then None else Some (mkRelease name flags)
  | _ => None
  end.

Definition history_Diffed (c : Call) : option Release :=
  match c with
  | CDiffRelease name _ _ flags => Some (mkRelease name flags)
  | _ => None
  end.

Definition history_Repo (c : Call) : option (list string) :=
  match c with
  | CAddRepo name repository cafile certfile keyfile username password managed
             passCredentials skipTLSVerify =>
      Some [name; repository; cafile; certfile; keyfile; username; password;
            managed; Sprint_bool passCredentials; Sprint_bool skipTLSVerify]
  | _ => None
  end.

(** The methods with an assignment in their body. *)
Definition recording (c : Call) : bool :=
  match c with
  | CUpdateDeps _ | CBuildDeps _ _ _ | CAddRepo _ _ _ _ _ _ _ _ _ _
  | CSyncRelease _ _ _ | CDiffRelease _ _ _ _ | CReleaseStatus _ _
  | CDeleteRelease _ _ | CTestRelease _ _ | CLint _ _ _
  | CTemplateRelease _ _ _ => true
  | _ => false
  end.

(** The methods whose only return statement returns a nil error (or nothing). *)
Definition always_succeeds (c : Call) : bool :=
  match c with
  | CSetExtraArgs _ | CSetHelmBinary _ | CSetEnableLiveOutput _
  | CSetDisableForceUpdate _ | CAddRepo _ _ _ _ _ _ _ _ _ _ | CUpdateRepo
  | CRegistryLogin _ _ _ _ _ _ _ | CDecryptSecret _ _ | CFetch _ _
  | CChartPull _ _ _ | CChartExport _ _ => true
  | _ => false
  end.

(** The error part of what a call handed back. *)
Definition error_of (v : Value) : option error :=
  match v with
  | VError err | VString _ err | VMetadata _ err => err
  | VNone | VBool _ | VVersion _ => None
  end.

(** The methods that append to Releases or Charts outside [sync]. *)
Definition appends_outside_sync (c : Call) : bool :=
  match c with
  | CUpdateDeps _ | CBuildDeps _ _ _ | CReleaseStatus _ _ | CTestRelease _ _ => true
  | _ => false
  end.

(** One goroutine's lock operations against [sync.Mutex], which is not
    reentrant: locking a mutex it holds blocks for good, unlocking one it does
    not hold is a fatal error; both are [None]. Otherwise the mutexes held at
    the end. *)
Fixpoint lock_run (held : list Mutex) (tr : list event) : option (list Mutex) :=
  match tr with
  | [] => Some held
  | EvLock m :: tr' =>
      if bool_decide (m ∈ held) then None else lock_run (m :: held) tr'
  | EvUnlock m :: tr' =>
      if bool_decide (m ∈ held) then lock_run (release_lock m held) tr' else None
  | EvAssign _ :: tr' => lock_run held tr'
  end.

(** No comma among the characters of [s]. *)
Definition comma_free (s : string) : bool :=
  semver.all_chars (λ c, negb (Z.of_nat (nat_of_ascii c) =? 44)) s.

(** A test body for the witnesses below: calls of every recording method,
    some on the sentinel, between calls that record nothing. *)
Definition sample_calls : list Call :=
  [ CSyncRelease "app" "charts/app" ["--wait"];
    CAddRepo "stable" "https://charts.example/stable" "" "" "" "" "" "" false false;
    CDiffRelease "error-app" "charts/app" false [];
    CUpdateDeps "charts/error";
    CReleaseStatus "app" [];
    CDeleteRelease "old" ["--purge"];
    CList [] "^app$" [];
    CLint "app" "charts/error" [];
    CAddRepo "incubator" "https://charts.example/incubator" "" "" "" "" "" "" true false;
    CTemplateRelease "error" "charts/app" [];
    CTestRelease "app" ["--cleanup"];
    CBuildDeps "error" "charts/db" [] ].

(** A double with a callback registry: one chart with a callback that fails,
    one with a callback that succeeds, one registered with a nil func. *)
Definition callbacks_helm : Helm :=
  mkHelm ["charts/base"] [] [] [] [] [] None None [] false false None
         (Some (<["charts/bad" := Some (λ chart, Returned (Some (errorString
                                     ("cannot update " +:+ chart))))]>
                (<["charts/good" := Some (λ _, Returned None)]>
                 (<["charts/nil" := None]> ∅))))
         None None None false.

(** * Properties *)

(** ** The version parser on examples *)

Example NewVersion_1_2_3 :
  semver.NewVersion "1.2.3" = Some (semver.mkVersion 1 2 3 "" "" "1.2.3").
Proof. reflexivity. Qed.

Example NewVersion_short :
  semver.NewVersion "v3" = Some (semver.mkVersion 3 0 0 "" "" "v3").
Proof. reflexivity. Qed.

Example NewVersion_tags :
  semver.NewVersion "1.2.3-rc.1+build-7"
  = Some (semver.mkVersion 1 2 3 "rc.1" "build-7" "1.2.3-rc.1+build-7").
Proof. reflexivity. Qed.

Example NewVersion_malformed :
  semver.NewVersion "not-a-version" = None ∧ semver.NewVersion "" = None ∧
  semver.NewVersion "1.2.3.4" = None ∧ semver.NewVersion "1." = None ∧
  semver.NewVersion "1.2.3-a..b" = None ∧
  semver.NewVersion "18446744073709551616" = None.
Proof. repeat split; vm_compute; reflexivity. Qed.

(** ** Strings *)

Lemma append_cons (x : ascii) (a b : string) :
  String x a +:+ b = String x (a +:+ b).
Proof. reflexivity. Qed.

Lemma append_assoc (a b c : string) : (a +:+ b) +:+ c = a +:+ b +:+ c.
Proof.
  induction a as [|x a IH]; [reflexivity |]. rewrite !append_cons. congruence.
Qed.

Lemma append_empty_r (a : string) : a +:+ "" = a.
Proof.
  induction a as [|x a IH]; [reflexivity |]. rewrite append_cons. congruence.
Qed.

Lemma prefix_spec (p s : string) :
  String.prefix p s = true ↔ ∃ r, s = p +:+ r.
Proof.
  revert s. induction p as [|x p IH]; intros [|y s]; simpl.
  - split; [intros _; by exists "" | done].
  - split; [intros _; by exists (String y s) | done].
  - split; [done | intros [r Hr]; discriminate].
  - destruct (ascii_dec x y) as [->|Hne].
    + rewrite IH. split; intros [r Hr]; exists r.
      * rewrite append_cons. congruence.
      * rewrite append_cons in Hr. congruence.
    + split; [done | intros [r Hr]]. rewrite append_cons in Hr. congruence.
Qed.

Lemma Contains_unfold (s sub : string) :
  Contains s sub =
  String.prefix sub s ||
  match s with EmptyString => false | String _ s' => Contains s' sub end.
Proof. by destruct s. Qed.

Lemma Contains_spec (s sub : string) :
  Contains s sub = true ↔ substring_of sub s.
Proof.
  unfold substring_of. induction s as [|x s IH]; rewrite Contains_unfold.
  - rewrite orb_false_r, prefix_spec. split.
    + intros [r Hr]. by exists "", r.
    + intros ([|y l] & r & Hr); [by exists r | discriminate].
  - rewrite orb_true_iff, prefix_spec, IH. split.
    + intros [[r Hr] | (l & r & Hr)].
      * by exists "", r.
      * exists (String x l), r. by rewrite Hr.
    + intros ([|y l] & r & Hr); [left; by exists r |].
      right. exists l, r. rewrite append_cons in Hr. congruence.
Qed.

Lemma substring_of_refl (s : string) : substring_of s s.
Proof. exists "", "". by rewrite append_empty_r. Qed.

Lemma substring_of_app_l (sub a b : string) :
  substring_of sub a → substring_of sub (a +:+ b).
Proof.
  intros (l & r & ->). exists l, (r +:+ b). by rewrite !append_assoc.
Qed.

Lemma substring_of_app_r (sub a b : string) :
  substring_of sub b → substring_of sub (a +:+ b).
Proof.
  intros (l & r & ->). exists (a +:+ l), r. by rewrite !append_assoc.
Qed.

Lemma substring_of_trans (a b c : string) :
  substring_of a b → substring_of b c → substring_of a c.
Proof.
  intros (l & r & ->) (l' & r' & ->).
  exists (l' +:+ l), (r +:+ r'). by rewrite !append_assoc.
Qed.

Create HintDb substr discriminated.
#[local] Hint Resolve substring_of_refl substring_of_app_l substring_of_app_r : substr.

Lemma Join_cons (e : string) (rest : list string) (sep : string) :
  Join (e :: rest) sep =
  match rest with [] => e | _ => e +:+ sep +:+ Join rest sep end.
Proof. reflexivity. Qed.

Lemma substring_of_Join (f : ListKey → string) (ks : list ListKey) (sep : string) k :
  k ∈ ks → substring_of (f k) (Join (map f ks) sep).
Proof.
  induction ks as [|k' ks IH]; intros Hin; [by apply elem_of_nil in Hin |].
  rewrite map_cons, Join_cons.
  apply elem_of_cons in Hin as [-> | Hin].
  - destruct (map f ks); auto with substr.
  - specialize (IH Hin). destruct (map f ks) eqn:E.
    + by destruct ks; [apply elem_of_nil in Hin |].
    + auto with substr.
Qed.

(** ** Running the methods *)

Ltac run :=
  unfold call, UpdateDeps, BuildDeps, SetExtraArgs, SetHelmBinary,
    SetEnableLiveOutput, SetDisableForceUpdate, AddRepo, UpdateRepo,
    RegistryLogin, SyncRelease, DiffRelease, ReleaseStatus, DeleteRelease,
    List, DecryptSecret, TestRelease, Fetch, Lint, TemplateRelease, ChartPull,
    ChartExport, IsHelm3, GetVersion, IsVersionAtLeast, ShowChart, sync,
    deferred, deref, lift, throw, emit, store, get, index_ok,
    mbind, mret, M_bind, M_ret in *;
  simpl in *.

(** What [DiffRelease] does to the receiver, whatever it answers. *)
Lemma DiffRelease_after name chart suppressDiff flags h :
  after (DiffRelease name chart suppressDiff flags h)
  = assign FDiffed (Diffed h ++ [mkRelease name flags]) h.
Proof.
  destruct h; run. by repeat (case_match; simplify_eq/=).
Qed.

Lemma DiffRelease_log name chart suppressDiff flags h :
  log (DiffRelease name chart suppressDiff flags h)
  = match DiffMutex h with
    | Some mu => [EvLock mu; EvAssign FDiffed; EvUnlock mu]
    | None => [EvAssign FDiffed]
    end.
Proof.
  destruct h; run. by repeat (case_match; simplify_eq/=).
Qed.

(** What [DiffRelease] answers: decided by the expectations, the strict flag
    and the key alone. *)
Lemma DiffRelease_result name chart suppressDiff flags h :
  result (DiffRelease name chart suppressDiff flags h)
  = Returned
      match Diffs h with
      | None => None
      | Some diffs =>
          let key := mkDiffKey name chart (Join flags "") in
          match diffs !! key with
          | Some err => err
          | None =>
              if FailOnUnexpectedDiff h
              then Some (errorString ("unexpected diff with key: " +:+ DiffKey_v key))
              else None
          end
      end.
Proof.
  destruct h; run. by repeat (case_match; simplify_eq/=).
Qed.

(** [List] never touches the receiver. *)
Lemma List_pure range_keys filter flags h :
  after (List range_keys filter flags h) = h ∧
  log (List range_keys filter flags h) = [].
Proof.
  destruct h; run. by repeat (case_match; simplify_eq/=).
Qed.

Lemma List_result range_keys filter flags h :
  result (List range_keys filter flags h)
  = Returned
      match Lists h with
      | None => ("dummy non-empty helm-list output", None)
      | Some lists =>
          let key := mkListKey filter (Join flags "") in
          match lists !! key with
          | Some res => (res, None)
          | None =>
              if FailOnUnexpectedList h
              then ("", Some (errorString
                     ("unexpected list key: " +:+ ListKey_String key
                      +:+ " not found in "
                      +:+ Join (map ListKey_String range_keys) ", ")))
              else ("", None)
          end
      end.
Proof.
  destruct h; run. by repeat (case_match; simplify_eq/=).
Qed.

(** ** C1: the sentinel *)

(** C1, amended. For every call to one of the eight methods that look for the
    sentinel (UpdateDeps and BuildDeps in the chart, SyncRelease,
    ReleaseStatus, DeleteRelease, TestRelease, Lint and TemplateRelease in the
    release name) whose inspected string contains "error", the call returns a
    non-nil error, assigns nothing, takes no lock and leaves the whole receiver
    as it was. DiffRelease is not among them: whatever the name, it appends the
    call to Diffed and answers from the diff expectations: nil without a map,
    the registered value on a hit, on a miss the unexpected-key error in
    strict mode and nil otherwise. *)
Theorem C1_sentinel_fails_without_recording
    (c : Call) (s : string) (h : Helm)
    (name chart : string) (suppressDiff : bool) (flags : list string) :
  sentinel_input c = Some s →
  Contains s "error" = true →
  (∃ e, result (call c h) = Returned (VError (Some e))) ∧
  after (call c h) = h ∧
  log (call c h) = [] ∧
  Diffed (after (DiffRelease name chart suppressDiff flags h))
  = Diffed h ++ [mkRelease name flags] ∧
  result (DiffRelease name chart suppressDiff flags h)
  = Returned
      match Diffs h with
      | None => None
      | Some diffs =>
          match diffs !! mkDiffKey name chart (Join flags "") with
          | Some err => err
          | None =>
              if FailOnUnexpectedDiff h
              then Some (errorString
                     ("unexpected diff with key: "
                      +:+ DiffKey_v (mkDiffKey name chart (Join flags ""))))
              else None
          end
      end.
Proof.
  intros Hin Hs. rewrite DiffRelease_after, DiffRelease_result. cbv zeta.
  destruct c; simpl in Hin; try discriminate; injection Hin as ->;
    run; rewrite Hs; simpl; eauto 10.
Qed.

Lemma C1_sentinel_witness :
  let h := assign FCharts ["kept"] Helm_zero in
  (∃ e, result (call (CUpdateDeps "broken-error-chart") h) = Returned (VError (Some e))) ∧
  after (call (CUpdateDeps "broken-error-chart") h) = h ∧
  log (call (CUpdateDeps "broken-error-chart") h) = [] ∧
  Diffed (after (DiffRelease "app" "chart-x" false ["--flag"] h))
  = Diffed h ++ [mkRelease "app" ["--flag"]] ∧
  result (DiffRelease "app" "chart-x" false ["--flag"] h) = Returned None.
Proof.
  exact (C1_sentinel_fails_without_recording
           (CUpdateDeps "broken-error-chart") "broken-error-chart"
           (assign FCharts ["kept"] Helm_zero) "app" "chart-x" false ["--flag"]
           eq_refl eq_refl).
Defined.

(** C1 as stated fails for Diff: on the zero-value double a release named
    "error" is diffed with success and the call is recorded. *)
Lemma C1_counterexample_DiffRelease :
  let r := DiffRelease "error" "chart" false [] Helm_zero in
  Contains "error" "error" = true ∧
  result r = Returned None ∧
  Diffed (after r) = [mkRelease "error" []] ∧
  ¬ fails_without_recording (DiffRelease "error" "chart" false []) Diffed Helm_zero.
Proof.
  repeat split. intros ([e He] & _). vm_compute in He. discriminate.
Qed.

(** ** C2: resolving a diff *)

(** C2, amended. With a diff-expectation map configured, DiffRelease first
    appends the call to Diffed and then: on a registered key returns the
    stored error value as it is (nil included); on an unregistered key in
    strict mode returns the error "unexpected diff with key: " followed by the
    key printed as {name chart flags}, which names the unmatched key and says
    nothing of the configured ones; on an unregistered key otherwise returns
    nil. *)
Theorem C2_diff_resolution
    (diffs : gmap DiffKey (option error)) (h : Helm)
    (name chart : string) (suppressDiff : bool) (flags : list string) :
  Diffs h = Some diffs →
  let r := DiffRelease name chart suppressDiff flags h in
  let key := mkDiffKey name chart (Join flags "") in
  Diffed (after r) = Diffed h ++ [mkRelease name flags] ∧
  match diffs !! key with
  | Some err => result r = Returned err
  | None =>
      if FailOnUnexpectedDiff h then
        let msg := "unexpected diff with key: " +:+ DiffKey_v key in
        result r = Returned (Some (errorString msg)) ∧
        substring_of (DiffKey_v key) msg ∧
        substring_of name msg ∧ substring_of chart msg ∧
        substring_of (Join flags "") msg
      else result r = Returned None
  end.
Proof.
  intros Hd r key. subst r. rewrite DiffRelease_after, DiffRelease_result, Hd.
  split; [by destruct h |]. fold key. cbv zeta.
  destruct (diffs !! key); [done |].
  destruct (FailOnUnexpectedDiff h); [|done].
  split; [done |]. unfold DiffKey_v; simpl. repeat split; auto 10 with substr.
Qed.

Lemma C2_diff_resolution_witness :
  let r := DiffRelease "other" "chart-x" false ["--flag"] scenario_helm in
  Diffed (after r) = [mkRelease "other" ["--flag"]] ∧
  result r = Returned (Some (errorString
                 "unexpected diff with key: {other chart-x --flag}")) ∧
  result (DiffRelease "app" "chart-x" false ["--flag"] scenario_helm)
  = Returned None.
Proof.
  pose proof (C2_diff_resolution scenario_diffs scenario_helm
                "other" "chart-x" false ["--flag"] eq_refl) as [H1 H2].
  pose proof (C2_diff_resolution scenario_diffs scenario_helm
                "app" "chart-x" false ["--flag"] eq_refl) as [_ H3].
  vm_compute in H2. destruct H2 as [H2 _].
  vm_compute in H3.
  cbv zeta. split; [exact H1 | split; [exact H2 | exact H3]].
Defined.

(** C2 as stated asks the strict miss to include the known keys. In the
    scenario the only configured key is for release "app"; the error for
    "other" does not mention it. *)
Lemma C2_counterexample_known_keys :
  Diffs scenario_helm = Some scenario_diffs ∧
  ¬ diff_resolution_as_claimed scenario_diffs scenario_helm
      "other" "chart-x" false ["--flag"].
Proof.
  split; [reflexivity |]. intros H.
  assert (Hmiss : scenario_diffs !! mkDiffKey "other" "chart-x" (Join ["--flag"] "")
                  = None) by (by vm_compute).
  unfold diff_resolution_as_claimed in H. cbv zeta in H.
  rewrite DiffRelease_result in H. destruct H as [_ H].
  change (Diffs scenario_helm) with (Some scenario_diffs) in H.
  change (FailOnUnexpectedDiff scenario_helm) with true in H.
  cbv beta iota zeta in H. rewrite Hmiss in H.
  destruct H as (msg & Hmsg & _ & Hknown).
  assert (Hc : Contains msg "app" = true).
  { apply Contains_spec, (Hknown (mkDiffKey "app" "chart-x" "--flag")).
    exists None. by vm_compute. }
  injection Hmsg as <-. vm_compute in Hc. discriminate.
Qed.

(** ** C3: resolving a list *)

Lemma ranges_over_lookup `{Countable K} {V} (ks : list K) (m : gmap K V) k :
  ranges_over ks m → is_Some (m !! k) → k ∈ ks.
Proof.
  intros Hperm [v Hv]. rewrite Hperm.
  apply list_elem_of_fmap. exists (k, v). split; [done |].
  by apply elem_of_map_to_list.
Qed.

(** C3. With a list-expectation map configured: on a registered (filter,
    joined flags) key List returns the registered string and no error; on an
    unregistered key in strict mode it returns the empty string and an error
    whose message contains the filter, the joined flags and the printed key,
    and the printed form of every configured key, in whatever order the map is
    ranged over; on an unregistered key otherwise it returns the empty string
    and no error. *)
Theorem C3_list_resolution
    (lists : gmap ListKey string) (h : Helm) (range_keys : list ListKey)
    (filter : string) (flags : list string) :
  Lists h = Some lists →
  ranges_over range_keys lists →
  let r := List range_keys filter flags h in
  let key := mkListKey filter (Join flags "") in
  match lists !! key with
  | Some res => result r = Returned (res, None)
  | None =>
      if FailOnUnexpectedList h then
        ∃ msg, result r = Returned ("", Some (errorString msg)) ∧
               substring_of filter msg ∧
               substring_of (Join flags "") msg ∧
               substring_of (ListKey_String key) msg ∧
               ∀ k, is_Some (lists !! k) → substring_of (ListKey_String k) msg
      else result r = Returned ("", None)
  end.
Proof.
  intros Hl Hrange r key. subst r. rewrite List_result, Hl. fold key. cbv zeta.
  destruct (lists !! key); [done |].
  destruct (FailOnUnexpectedList h); [|done].
  eexists. split; [done |]. unfold ListKey_String at 1 2 3; simpl.
  repeat split; auto 10 with substr.
  intros k Hk. do 3 apply substring_of_app_r.
  apply substring_of_Join. by eapply ranges_over_lookup.
Qed.

Lemma C3_list_resolution_witness :
  let ks := [mkListKey "^db$" ""; mkListKey "^app$" "--kube-contextdefault"] in
  result (List ks "^app$" ["--kube-context"; "default"] scenario_helm)
  = Returned ("app-row", None) ∧
  ∃ msg, result (List ks "^web$" ["--all"] scenario_helm)
         = Returned ("", Some (errorString msg)) ∧
         substring_of "^web$" msg ∧ substring_of "--all" msg ∧
         substring_of "listkey(filter=^db$,flags=)" msg.
Proof.
  assert (Hrange : ranges_over
            [mkListKey "^db$" ""; mkListKey "^app$" "--kube-contextdefault"]
            scenario_lists).
  { unfold ranges_over. vm_compute. apply perm_swap. }
  split.
  - exact (C3_list_resolution scenario_lists scenario_helm _
             "^app$" ["--kube-context"; "default"] eq_refl Hrange).
  - pose proof (C3_list_resolution scenario_lists scenario_helm _
                  "^web$" ["--all"] eq_refl Hrange) as H.
    assert (Hmiss : scenario_lists !! mkListKey "^web$" (Join ["--all"] "") = None)
      by (by vm_compute).
    cbv zeta in H. rewrite Hmiss in H.
    destruct H as (msg & Hres & Hfilter & Hflags & _ & Hkeys).
    exists msg. repeat split; [exact Hres | exact Hfilter | exact Hflags |].
    apply (Hkeys (mkListKey "^db$" "")). exists "db-row". by vm_compute.
Defined.

(** ** C4: no expectations configured *)

(** C4. When the list-expectation map is nil, List returns the fixed
    placeholder, which is not empty, and no error, and leaves the double as it
    was, whatever the filter and flags; when the diff-expectation map is nil,
    DiffRelease returns nil, whatever the name, chart and flags. *)
Theorem C4_no_expectations
    (h : Helm) (range_keys : list ListKey) (filter name chart : string)
    (suppressDiff : bool) (flags : list string) :
  (Lists h = None →
   List range_keys filter flags h
   = mkRun (Returned ("dummy non-empty helm-list output", None)) h [] ∧
   "dummy non-empty helm-list output" ≠ "") ∧
  (Diffs h = None →
   result (DiffRelease name chart suppressDiff flags h) = Returned None).
Proof.
  split.
  - intros Hl. split; [|done]. unfold List; run. by rewrite Hl.
  - intros Hd. by rewrite DiffRelease_result, Hd.
Qed.

Lemma C4_no_expectations_witness :
  List [] "^app$" ["--all"] Helm_zero
  = mkRun (Returned ("dummy non-empty helm-list output", None)) Helm_zero [] ∧
  result (DiffRelease "app" "chart-x" true ["--flag"] Helm_zero) = Returned None.
Proof.
  destruct (C4_no_expectations Helm_zero [] "^app$" "app" "chart-x" true ["--flag"])
    as [Hlist Hdiff].
  split; [exact (proj1 (Hlist eq_refl)) | exact (Hdiff eq_refl)].
Defined.

(** ** C10: the flags reach the expectations as one joined string *)

(** C10, amended. Two flag lists with the same delimiter-free concatenation
    are the same to expectation lookup. On one double and otherwise equal
    arguments, each List call ranging over the map in an order of its own:
    DiffRelease returns the same error value, which on a hit is the one
    registered under the concatenation; List on a hit returns the string
    registered under the concatenation and no error, in both calls; neither
    List call touches the double; and the two List results are the same, or
    they are two strict-miss errors that differ only in the order in which
    the message enumerates the configured keys. With one order for both
    calls, with no map configured and in lenient mode the two List runs are
    equal. *)
Theorem C10_flags_joined
    (h : Helm) (ks1 ks2 : list ListKey) (filter name chart : string)
    (suppressDiff : bool) (flags1 flags2 : list string) :
  Join flags1 "" = Join flags2 "" →
  (∀ lists, Lists h = Some lists → ranges_over ks1 lists ∧ ranges_over ks2 lists) →
  let l1 := List ks1 filter flags1 h in
  let l2 := List ks2 filter flags2 h in
  let d1 := DiffRelease name chart suppressDiff flags1 h in
  let d2 := DiffRelease name chart suppressDiff flags2 h in
  result d1 = result d2 ∧
  (∀ diffs err, Diffs h = Some diffs →
     diffs !! mkDiffKey name chart (Join flags1 "") = Some err →
     result d1 = Returned err ∧ result d2 = Returned err) ∧
  (∀ lists res, Lists h = Some lists →
     lists !! mkListKey filter (Join flags1 "") = Some res →
     result l1 = Returned (res, None) ∧ result l2 = Returned (res, None)) ∧
  (after l1 = h ∧ log l1 = []) ∧ (after l2 = h ∧ log l2 = []) ∧
  same_up_to_enumeration (result l1) (result l2) ∧
  (ks1 = ks2 ∨ Lists h = None ∨ FailOnUnexpectedList h = false → l1 = l2).
Proof.
  intros Hj Hrange l1 l2 d1 d2. subst l1 l2 d1 d2.
  assert (Heq : ks1 = ks2 ∨ Lists h = None ∨ FailOnUnexpectedList h = false →
                List ks1 filter flags1 h = List ks2 filter flags2 h).
  { intros Hsame.
    pose proof (List_pure ks1 filter flags1 h) as [Ha1 Hl1].
    pose proof (List_pure ks2 filter flags2 h) as [Ha2 Hl2].
    pose proof (List_result ks1 filter flags1 h) as Hr1.
    pose proof (List_result ks2 filter flags2 h) as Hr2.
    rewrite <- Hj in Hr2. cbv zeta in Hr1, Hr2.
    destruct (List ks1 filter flags1 h), (List ks2 filter flags2 h).
    simpl in *. subst. f_equal.
    destruct Hsame as [-> | [-> | ->]]; [done.. |].
    by repeat case_match. }
  rewrite !DiffRelease_result, !List_result, <- Hj. cbv zeta.
  split; [done |]. split.
  { by intros diffs err -> ->. }
  split.
  { by intros lists res -> ->. }
  split; [apply List_pure |]. split; [apply List_pure |]. split.
  - destruct (Lists h) as [lists|] eqn:Hl; [|by left].
    destruct (lists !! _); [by left |].
    destruct (FailOnUnexpectedList h); [|by left].
    right. destruct (Hrange lists eq_refl) as [H1 H2].
    eexists _, ks1, ks2. split; [by rewrite H1, H2 |].
    split; rewrite <- ?append_assoc; reflexivity.
  - exact Heq.
Qed.

Lemma C10_flags_joined_witness :
  let ks1 := [mkListKey "^db$" ""; mkListKey "^app$" "--kube-contextdefault"] in
  let ks2 := [mkListKey "^app$" "--kube-contextdefault"; mkListKey "^db$" ""] in
  result (DiffRelease "app" "chart-x" false ["--fl"; "ag"] scenario_helm)
  = result (DiffRelease "app" "chart-x" false ["--flag"] scenario_helm) ∧
  same_up_to_enumeration
    (result (List ks1 "^web$" ["--fl"; "ag"] scenario_helm))
    (result (List ks2 "^web$" ["--flag"] scenario_helm)) ∧
  result (List ks1 "^app$" ["--kube-context"; "default"] scenario_helm)
  = Returned ("app-row", None) ∧
  result (List ks2 "^app$" ["--kube-contextdefault"] scenario_helm)
  = Returned ("app-row", None).
Proof.
  intros ks1 ks2.
  assert (Hrange : ∀ lists, Lists scenario_helm = Some lists →
                     ranges_over ks1 lists ∧ ranges_over ks2 lists).
  { intros lists [= <-]. unfold ranges_over.
    split; vm_compute; [apply perm_swap | reflexivity]. }
  pose proof (C10_flags_joined scenario_helm ks1 ks2 "^web$" "app" "chart-x" false
                ["--fl"; "ag"] ["--flag"] eq_refl Hrange) as Hmiss.
  pose proof (C10_flags_joined scenario_helm ks1 ks2 "^app$" "app" "chart-x" false
                ["--kube-context"; "default"] ["--kube-contextdefault"]
                eq_refl Hrange) as Hhit.
  cbv zeta in Hmiss, Hhit.
  split; [exact (proj1 Hmiss) |].
  split; [exact (proj1 (proj2 (proj2 (proj2 (proj2 (proj2 Hmiss)))))) |].
  apply (proj1 (proj2 (proj2 Hhit)) scenario_lists "app-row" eq_refl).
  by vm_compute.
Defined.

(** C10 as stated fails for List where it reports a strict miss on a map of
    two or more keys: the message enumerates the configured keys in the order
    of the loop over the map, and two calls need not range alike. *)
Lemma C10_counterexample_enumeration :
  Join ["ab"] "" = Join ["a"; "b"] "" ∧
  ranges_over [mkListKey "^db$" ""; mkListKey "^app$" "--kube-contextdefault"]
              scenario_lists ∧
  ranges_over [mkListKey "^app$" "--kube-contextdefault"; mkListKey "^db$" ""]
              scenario_lists ∧
  ¬ flags_indistinguishable_as_claimed scenario_helm "^web$" ["ab"] ["a"; "b"].
Proof.
  assert (H1 : ranges_over
                 [mkListKey "^db$" ""; mkListKey "^app$" "--kube-contextdefault"]
                 scenario_lists)
    by (unfold ranges_over; vm_compute; apply perm_swap).
  assert (H2 : ranges_over
                 [mkListKey "^app$" "--kube-contextdefault"; mkListKey "^db$" ""]
                 scenario_lists)
    by (unfold ranges_over; vm_compute; reflexivity).
  repeat split; [done.. |]. intros H.
  specialize (H scenario_lists _ _ eq_refl H1 H2).
  vm_compute in H. discriminate H.
Qed.

(** ** C6, C7: IsVersionAtLeast *)

Lemma Equal_or_GreaterThan (v o : semver.Version) :
  semver.Equal v o || semver.GreaterThan v o = true ↔ version_ge v o.
Proof.
  unfold semver.Equal, semver.GreaterThan, version_ge.
  destruct (semver.Compare v o); simpl; split; done.
Qed.

(** Between versions without a pre-release tag, precedence is the order of
    the triples; metadata plays no part. *)
Lemma Compare_release (v o : semver.Version) :
  semver.pre v = "" → semver.pre o = "" →
  semver.Compare v o = triple_compare v o.
Proof.
  intros Hv Ho. unfold semver.Compare, triple_compare, semver.compareSegment.
  rewrite Hv, Ho. simpl.
  destruct (semver.major v ?= semver.major o); [|done..].
  destruct (semver.minor v ?= semver.minor o); [|done..].
  by destruct (semver.patch v ?= semver.patch o).
Qed.

(** In general the triples decide whenever they differ, and a version is
    never at least one with a greater triple. *)
Lemma Compare_triples (v o : semver.Version) :
  (triple_compare v o ≠ Eq → semver.Compare v o = triple_compare v o) ∧
  (version_ge v o → triple_compare v o ≠ Lt).
Proof.
  unfold version_ge, semver.Compare, triple_compare, semver.compareSegment.
  destruct (semver.major v ?= semver.major o); [|done..].
  destruct (semver.minor v ?= semver.minor o); [|done..].
  by destruct (semver.patch v ?= semver.patch o).
Qed.

Lemma IsVersionAtLeast_unset (versionStr : string) (h : Helm) :
  Version h = None → IsVersionAtLeast versionStr h = mkRun (Returned false) h [].
Proof. intros Hv. run. by rewrite Hv. Qed.

Lemma IsVersionAtLeast_set (versionStr : string) (h : Helm) (v : semver.Version) :
  Version h = Some v →
  IsVersionAtLeast versionStr h
  = match semver.NewVersion versionStr with
    | Some ver =>
        mkRun (Returned (semver.Equal v ver || semver.GreaterThan v ver)) h []
    | None => mkRun (Panicked (InvalidVersion versionStr)) h []
    end.
Proof.
  intros Hv. run. rewrite Hv. unfold semver.MustParse.
  by destruct (semver.NewVersion versionStr).
Qed.

(** *** The library's comparison and the precedence of the standard *)

Lemma is_num_digit (c : ascii) : semver.is_num c = true → 0 ≤ digit c ≤ 9.
Proof. unfold semver.is_num, digit. lia. Qed.

Lemma digit_inj (c d : ascii) : digit c = digit d → c = d.
Proof.
  unfold digit. intros H. assert (nat_of_ascii c = nat_of_ascii d) as E by lia.
  by rewrite <- (ascii_nat_embedding c), <- (ascii_nat_embedding d), E.
Qed.

Lemma digits_value_acc (acc : Z) (s : string) :
  semver.digits_value acc s
  = acc * 10 ^ Z.of_nat (String.length s) + semver.digits_value 0 s.
Proof.
  revert acc. induction s as [|c s IH]; intros acc.
  - simpl. lia.
  - cbn [semver.digits_value String.length].
    rewrite (IH (10 * acc + _)), (IH (10 * 0 + _)).
    rewrite Nat2Z.inj_succ, Z.pow_succ_r by lia. fold (digit c). ring.
Qed.

Lemma digits_value_cons (c : ascii) (s : string) :
  semver.digits_value 0 (String c s)
  = digit c * 10 ^ Z.of_nat (String.length s) + semver.digits_value 0 s.
Proof.
  cbn [semver.digits_value]. rewrite digits_value_acc. fold (digit c). ring.
Qed.

Lemma digits_value_bound (s : string) :
  semver.all_chars semver.is_num s = true →
  0 ≤ semver.digits_value 0 s < 10 ^ Z.of_nat (String.length s).
Proof.
  induction s as [|c s IH]; [simpl; lia |].
  cbn [semver.all_chars]. intros [Hc Hs]%andb_true_iff.
  rewrite digits_value_cons. cbn [String.length].
  rewrite Nat2Z.inj_succ, Z.pow_succ_r by lia.
  specialize (IH Hs). apply is_num_digit in Hc. nia.
Qed.

(** Digit strings of one length denote different numbers. *)
Lemma digits_value_inj_length (a b : string) :
  semver.all_chars semver.is_num a = true →
  semver.all_chars semver.is_num b = true →
  String.length a = String.length b →
  semver.digits_value 0 a = semver.digits_value 0 b → a = b.
Proof.
  revert b. induction a as [|c a IH]; intros [|d b]; try done.
  cbn [semver.all_chars String.length].
  intros [Hc Ha]%andb_true_iff [Hd Hb]%andb_true_iff [= Hlen].
  rewrite !digits_value_cons, Hlen. intros Hval.
  pose proof (digits_value_bound a Ha) as Ba.
  pose proof (digits_value_bound b Hb) as Bb.
  rewrite Hlen in Ba.
  apply is_num_digit in Hc, Hd.
  assert (0 < 10 ^ Z.of_nat (String.length b)) as Hpos by (apply Z.pow_pos_nonneg; lia).
  assert (digit c = digit d) as Hcd by nia.
  rewrite Hcd in Hval.
  f_equal; [by apply digit_inj | apply IH; [done.. | lia]].
Qed.

(** A digit string of two or more digits that does not start with 0 is at
    least the power of ten of its length less one. *)
Lemma digits_value_lower (s : string) :
  semver.all_chars semver.is_num s = true →
  no_leading_zero s = true →
  (2 ≤ String.length s)%nat →
  10 ^ (Z.of_nat (String.length s) - 1) ≤ semver.digits_value 0 s.
Proof.
  destruct s as [|c s]; [simpl; lia |].
  cbn [semver.all_chars String.length]. unfold no_leading_zero.
  intros [Hc Hs]%andb_true_iff Hz Hlen.
  rewrite digits_value_cons.
  replace (Z.of_nat (S (String.length s)) - 1) with (Z.of_nat (String.length s)) by lia.
  pose proof (digits_value_bound s Hs) as Bs.
  assert (0 < 10 ^ Z.of_nat (String.length s)) as Hpos by (apply Z.pow_pos_nonneg; lia).
  assert (1 ≤ digit c) as H1;
    [|generalize dependent (10 ^ Z.of_nat (String.length s)); intros; nia].
  apply negb_true_iff, andb_false_iff in Hz as [Hz|Hz].
  { apply Z.ltb_ge in Hz. cbn [String.length] in Hz, Hlen. lia. }
  pose proof (is_num_digit c Hc) as Hd.
  destruct (decide (digit c = 0)) as [H0|]; [|lia].
  assert (c = "0"%char) as -> by (apply digit_inj; rewrite H0; reflexivity).
  simpl in Hz. by destruct s.
Qed.

Lemma digits_value_inj (a b : string) :
  semver.all_chars semver.is_num a = true →
  semver.all_chars semver.is_num b = true →
  no_leading_zero a = true → no_leading_zero b = true →
  a ≠ "" → b ≠ "" →
  semver.digits_value 0 a = semver.digits_value 0 b → a = b.
Proof.
  intros Ha Hb Za Zb Na Nb Hval.
  apply digits_value_inj_length; [done.. | | done].
  pose proof (digits_value_bound a Ha) as Ba.
  pose proof (digits_value_bound b Hb) as Bb.
  assert (1 ≤ String.length a)%nat by (destruct a; [done | simpl; lia]).
  assert (1 ≤ String.length b)%nat by (destruct b; [done | simpl; lia]).
  destruct (Nat.lt_trichotomy (String.length a) (String.length b)) as [Hlt|[?|Hlt]];
    [exfalso | done | exfalso].
  - pose proof (digits_value_lower b Hb Zb ltac:(lia)) as Lb.
    assert (10 ^ Z.of_nat (String.length a) ≤ 10 ^ (Z.of_nat (String.length b) - 1))
      by (apply Z.pow_le_mono_r; lia).
    lia.
  - pose proof (digits_value_lower a Ha Za ltac:(lia)) as La.
    assert (10 ^ Z.of_nat (String.length b) ≤ 10 ^ (Z.of_nat (String.length a) - 1))
      by (apply Z.pow_le_mono_r; lia).
    lia.
Qed.

Lemma eqb_empty (s : string) : String.eqb s "" = false ↔ s ≠ "".
Proof. by rewrite String.eqb_neq. Qed.

(** What [ParseUint] makes of a canonical identifier. *)
Lemma ParseUint_canonical (s : string) :
  canonical_identifier s = true →
  semver.ParseUint s
  = if numeric_identifier s then Some (semver.digits_value 0 s) else None.
Proof.
  unfold canonical_identifier, numeric_identifier, semver.ParseUint.
  intros [Hne Hc]%andb_true_iff. rewrite Hne. simpl.
  destruct s as [|c s]; [done |].
  destruct (semver.all_chars semver.is_num (String c s)); [|done].
  apply andb_true_iff in Hc as [_ Hr]. by rewrite Hr.
Qed.

Lemma comparePrePart_identifier (a b : string) :
  canonical_identifier a = true → canonical_identifier b = true →
  semver.comparePrePart a b = identifier_compare a b.
Proof.
  intros Ha Hb. unfold semver.comparePrePart, identifier_compare.
  rewrite (ParseUint_canonical a Ha), (ParseUint_canonical b Hb).
  destruct (String.eqb a b) eqn:Eab.
  - apply String.eqb_eq in Eab as ->.
    destruct (numeric_identifier b).
    + by rewrite Z.compare_refl.
    + pose proof (String.compare_antisym b b) as E.
      by destruct (String.compare b b).
  - apply String.eqb_neq in Eab.
    pose proof Ha as Ha'. pose proof Hb as Hb'.
    unfold canonical_identifier in Ha', Hb'.
    apply andb_true_iff in Ha' as [Na Ca], Hb' as [Nb Cb].
    apply negb_true_iff in Na, Nb. rewrite Na, Nb.
    unfold numeric_identifier. rewrite Na, Nb. simpl.
    destruct (semver.all_chars semver.is_num a) eqn:Da,
             (semver.all_chars semver.is_num b) eqn:Db; try done.
    + apply andb_true_iff in Ca as [Za _], Cb as [Zb _].
      apply eqb_empty in Na, Nb.
      assert (semver.digits_value 0 a ≠ semver.digits_value 0 b) as Hne
        by (intros E; by apply Eab, digits_value_inj).
      destruct (Z.compare_spec (semver.digits_value 0 a) (semver.digits_value 0 b))
        as [?|?|?]; [done | |].
      * by rewrite (proj2 (Z.ltb_ge _ _)) by lia.
      * by rewrite (proj2 (Z.ltb_lt _ _)) by lia.
    + unfold String.ltb. rewrite (String.compare_antisym a b).
      destruct (String.compare b a) eqn:E; simpl; try done.
      by apply String.compare_eq_iff in E.
Qed.

Lemma comparePrePart_end_l (b : string) :
  b ≠ "" → semver.comparePrePart "" b = Lt.
Proof.
  intros Hb. unfold semver.comparePrePart.
  destruct b; [done | reflexivity].
Qed.

Lemma comparePrePart_end_r (a : string) :
  a ≠ "" → semver.comparePrePart a "" = Gt.
Proof.
  intros Ha. unfold semver.comparePrePart.
  apply eqb_empty in Ha. by rewrite Ha.
Qed.

Lemma canonical_identifier_nonempty (s : string) :
  canonical_identifier s = true → s ≠ "".
Proof. by intros [?%negb_true_iff%eqb_empty _]%andb_true_iff. Qed.

(** The loop of [comparePrerelease] over the positions of the longer list is
    the comparison identifier by identifier. *)
Lemma first_difference_identifiers (ps qs : list string) :
  forallb canonical_identifier ps = true →
  forallb canonical_identifier qs = true →
  semver.first_difference
    (map (λ i, semver.comparePrePart (nth i ps "") (nth i qs ""))
         (seq 0 (Nat.max (length ps) (length qs))))
  = identifiers_compare ps qs.
Proof.
  revert qs. induction ps as [|p ps IH]; intros [|q qs]; cbn [forallb].
  - done.
  - intros _ [Hq _]%andb_true_iff. cbn [length Nat.max seq map nth].
    by rewrite comparePrePart_end_l by by apply canonical_identifier_nonempty.
  - intros [Hp _]%andb_true_iff _. cbn [length Nat.max seq map nth].
    by rewrite comparePrePart_end_r by by apply canonical_identifier_nonempty.
  - intros [Hp Hps]%andb_true_iff [Hq Hqs]%andb_true_iff.
    cbn [length Nat.max].
    cbn [seq map nth semver.first_difference identifiers_compare].
    rewrite <- seq_shift, map_map. cbn [nth].
    rewrite (comparePrePart_identifier p q Hp Hq), (IH qs Hps Hqs).
    by destruct (identifier_compare p q).
Qed.

(** On canonical pre-release tags the library's [Compare] is the precedence
    of Semantic Versioning. *)
Lemma Compare_precedence (v o : semver.Version) :
  canonical_prerelease (semver.pre v) = true →
  canonical_prerelease (semver.pre o) = true →
  semver.Compare v o = precedence v o.
Proof.
  unfold canonical_prerelease, semver.Compare, precedence, triple_compare,
    semver.compareSegment.
  intros Hv Ho.
  destruct (semver.major v ?= semver.major o); [|done..].
  destruct (semver.minor v ?= semver.minor o); [|done..].
  destruct (semver.patch v ?= semver.patch o); [|done..].
  destruct (semver.pre v) as [|c p] eqn:Ev, (semver.pre o) as [|d q] eqn:Eo;
    [done..|].
  simpl in Hv, Ho. unfold semver.comparePrerelease.
  change (String.eqb (String c p) "") with false.
  change (String.eqb (String d q) "") with false. cbn [andb].
  by apply first_difference_identifiers.
Qed.

(** What a call answers once both versions are there, in terms of [Compare]. *)
Lemma IsVersionAtLeast_Compare (versionStr : string) (h : Helm)
    (v ver : semver.Version) :
  Version h = Some v → semver.NewVersion versionStr = Some ver →
  IsVersionAtLeast versionStr h
  = mkRun (Returned (if semver.Compare v ver is Lt then false else true)) h [].
Proof.
  intros Hv Hver. rewrite (IsVersionAtLeast_set _ _ v Hv), Hver.
  unfold semver.Equal, semver.GreaterThan. by destruct (semver.Compare v ver).
Qed.

(** C6, amended. With no version configured IsVersionAtLeast(X) returns
    false whatever X. It returns true only if a version is configured, X
    parses and the configured (major, minor, patch) is that of X or above.
    With a version configured and X parsing it returns, leaving the double
    as it was, true exactly when the configured version is X or above in the
    precedence of Semantic Versioning, for pre-release tags of canonical
    identifiers: the triples first, then a release above its pre-releases,
    then the tags identifier by identifier. Where the triples differ they
    decide alone, and between versions without pre-release tag the precedence
    is the order of the triples. IsVersionAtLeast("1.2.3") is true at 1.2.3
    and at 1.3.0, false at 1.2.2, at 1.2.3-rc.1 and on the zero-value
    double. *)
Theorem C6_IsVersionAtLeast (h : Helm) (versionStr : string) :
  (Version h = None → IsVersionAtLeast versionStr h = mkRun (Returned false) h []) ∧
  (result (IsVersionAtLeast versionStr h) = Returned true →
   ∃ v ver, Version h = Some v ∧ semver.NewVersion versionStr = Some ver ∧
            triple_compare v ver ≠ Lt) ∧
  (∀ v ver, Version h = Some v → semver.NewVersion versionStr = Some ver →
     (canonical_prerelease (semver.pre v) = true →
      canonical_prerelease (semver.pre ver) = true →
      IsVersionAtLeast versionStr h
      = mkRun (Returned (if precedence v ver is Lt then false else true)) h []) ∧
     (triple_compare v ver ≠ Eq →
      (result (IsVersionAtLeast versionStr h) = Returned true
       ↔ triple_compare v ver = Gt)) ∧
     (semver.pre v = "" → semver.pre ver = "" →
      (result (IsVersionAtLeast versionStr h) = Returned true
       ↔ triple_compare v ver ≠ Lt))) ∧
  result (IsVersionAtLeast "1.2.3" (helm_at "1.2.3")) = Returned true ∧
  result (IsVersionAtLeast "1.2.3" (helm_at "1.3.0")) = Returned true ∧
  result (IsVersionAtLeast "1.2.3" (helm_at "1.2.2")) = Returned false ∧
  result (IsVersionAtLeast "1.2.3" (helm_at "1.2.3-rc.1")) = Returned false ∧
  result (IsVersionAtLeast "1.2.3" Helm_zero) = Returned false.
Proof.
  split; [apply IsVersionAtLeast_unset |]. split.
  { destruct (Version h) as [v|] eqn:Hv.
    - rewrite (IsVersionAtLeast_set _ _ v Hv).
      destruct (semver.NewVersion versionStr) as [ver|]; [|done]. simpl.
      intros [= H]. exists v, ver. repeat split.
      by apply Compare_triples, Equal_or_GreaterThan.
    - by rewrite (IsVersionAtLeast_unset _ _ Hv). }
  split; [|done].
  intros v ver Hv Hver. rewrite (IsVersionAtLeast_Compare _ _ v ver Hv Hver).
  split; [|split].
  - intros Cv Cver. by rewrite (Compare_precedence v ver Cv Cver).
  - intros Hne. rewrite (proj1 (Compare_triples v ver) Hne). simpl.
    destruct (triple_compare v ver); split; done.
  - intros Pv Pver. rewrite (Compare_release v ver Pv Pver). simpl.
    destruct (triple_compare v ver); split; done.
Qed.

Lemma C6_IsVersionAtLeast_witness :
  IsVersionAtLeast "3.1" Helm_zero = mkRun (Returned false) Helm_zero [] ∧
  IsVersionAtLeast "v1.2.3-rc.9" (helm_at "1.2.3-rc.10+build")
  = mkRun (Returned true) (helm_at "1.2.3-rc.10+build") [] ∧
  IsVersionAtLeast "1.2.3-rc.1" (helm_at "1.2.3-rc")
  = mkRun (Returned false) (helm_at "1.2.3-rc") [] ∧
  (result (IsVersionAtLeast "v1.2" (helm_at "1.10.0+build")) = Returned true
   ↔ triple_compare (semver.mkVersion 1 10 0 "" "build" "1.10.0+build")
                    (semver.mkVersion 1 2 0 "" "" "v1.2") ≠ Lt).
Proof.
  split; [|split; [|split]].
  - exact (proj1 (C6_IsVersionAtLeast Helm_zero "3.1") eq_refl).
  - exact (proj1 (proj1 (proj2 (proj2 (C6_IsVersionAtLeast
             (helm_at "1.2.3-rc.10+build") "v1.2.3-rc.9"))) _ _ eq_refl eq_refl)
             eq_refl eq_refl).
  - exact (proj1 (proj1 (proj2 (proj2 (C6_IsVersionAtLeast
             (helm_at "1.2.3-rc") "1.2.3-rc.1"))) _ _ eq_refl eq_refl)
             eq_refl eq_refl).
  - exact (proj2 (proj2 (proj1 (proj2 (proj2 (C6_IsVersionAtLeast
             (helm_at "1.10.0+build") "v1.2"))) _ _ eq_refl eq_refl))
             eq_refl eq_refl).
Defined.

(** C6 as stated fails on a configured pre-release: its triple is that of the
    argument, and it is below the release. *)
Lemma C6_counterexample_prerelease :
  Version (helm_at "1.2.3-rc.1")
  = Some (semver.mkVersion 1 2 3 "rc.1" "" "1.2.3-rc.1") ∧
  semver.NewVersion "1.2.3" = Some (semver.mkVersion 1 2 3 "" "" "1.2.3") ∧
  result (IsVersionAtLeast "1.2.3" (helm_at "1.2.3-rc.1")) = Returned false ∧
  ¬ at_least_as_claimed (helm_at "1.2.3-rc.1") "1.2.3".
Proof.
  repeat split. intros H.
  specialize (H _ eq_refl). destruct H as [_ H].
  assert (result (IsVersionAtLeast "1.2.3" (helm_at "1.2.3-rc.1")) = Returned true)
    as Hcontra; [|discriminate Hcontra].
  apply H. eexists. split; [reflexivity |]. by vm_compute.
Qed.

(** C7, amended. On a double with a version configured, IsVersionAtLeast(X)
    with an X that does not parse panics, with the double left as it was. With
    no version configured the argument is never parsed and the call returns
    false. *)
Theorem C7_malformed_version_is_fatal
    (h : Helm) (v : semver.Version) (versionStr : string) :
  (Version h = Some v →
   semver.NewVersion versionStr = None →
   IsVersionAtLeast versionStr h
   = mkRun (Panicked (InvalidVersion versionStr)) h []) ∧
  (Version h = None →
   IsVersionAtLeast versionStr h = mkRun (Returned false) h []).
Proof.
  split; [|apply IsVersionAtLeast_unset].
  intros Hv Hbad. by rewrite (IsVersionAtLeast_set _ _ v Hv), Hbad.
Qed.

Lemma C7_malformed_version_witness :
  IsVersionAtLeast "one.two" (helm_at "3.2.0")
  = mkRun (Panicked (InvalidVersion "one.two")) (helm_at "3.2.0") [] ∧
  IsVersionAtLeast "one.two" Helm_zero = mkRun (Returned false) Helm_zero [].
Proof.
  split.
  - exact (proj1 (C7_malformed_version_is_fatal (helm_at "3.2.0")
                    (semver.mkVersion 3 2 0 "" "" "3.2.0") "one.two")
             eq_refl eq_refl).
  - exact (proj2 (C7_malformed_version_is_fatal Helm_zero
                    (semver.mkVersion 3 2 0 "" "" "3.2.0") "one.two")
             eq_refl).
Defined.

(** C7 as stated fails on a double without version: the malformed argument
    is answered false. *)
Lemma C7_counterexample_unset :
  semver.NewVersion "not-a-version" = None ∧
  result (IsVersionAtLeast "not-a-version" Helm_zero) = Returned false ∧
  ¬ fatal_when_malformed Helm_zero "not-a-version".
Proof.
  repeat split. intros H. destruct (H eq_refl) as [p Hp]. discriminate.
Qed.

(** ** C8: panics *)

(** C8, at the failing input: on a double with no version configured,
    GetVersion dereferences the nil [helm.Version] and panics. *)
Theorem C8_GetVersion_unset_panics :
  Version Helm_zero = None ∧
  GetVersion Helm_zero = mkRun (Panicked NilDereference) Helm_zero [] ∧
  (∀ h, Version h = None → result (GetVersion h) = Panicked NilDereference).
Proof.
  repeat split. intros h Hv. run. by rewrite Hv.
Qed.

(** With a version configured GetVersion returns its three numbers. *)
Lemma GetVersion_set (h : Helm) (v : semver.Version) :
  Version h = Some v →
  GetVersion h
  = mkRun (Returned (mkHelmexecVersion (int_of_uint64 (semver.major v))
                                       (int_of_uint64 (semver.minor v))
                                       (int_of_uint64 (semver.patch v)))) h [].
Proof. intros Hv. run. by rewrite Hv. Qed.

Lemma int_of_uint64_small (x : Z) : 0 ≤ x < 2 ^ 63 → int_of_uint64 x = x.
Proof.
  intros Hx. unfold int_of_uint64. rewrite Z.mod_small; lia.
Qed.

(** Where a call can panic: the nil version in GetVersion, the malformed
    argument of IsVersionAtLeast, and in UpdateDeps a registered callback that
    is nil or panics itself. Every other call returns. *)
Lemma call_panics_only (c : Call) (h : Helm) (p : panic) :
  result (call c h) = Panicked p →
  (c = CGetVersion ∧ Version h = None ∧ p = NilDereference) ∨
  (∃ versionStr, c = CIsVersionAtLeast versionStr ∧ is_Some (Version h) ∧
                 semver.NewVersion versionStr = None ∧ p = InvalidVersion versionStr) ∨
  (∃ chart callbacks callback,
     c = CUpdateDeps chart ∧ UpdateDepsCallbacks h = Some callbacks ∧
     callbacks !! chart = Some callback ∧
     match callback with
     | None => p = NilDereference
     | Some f => f chart = Panicked p
     end).
Proof.
  destruct c; try (destruct h; run; repeat (case_match; simplify_eq/=); done).
  - intros H. do 2 right. destruct h; run.
    repeat (case_match; simplify_eq/=);
      eexists chart, _, _; (repeat split; [done.. |]); done.
  - intros H. left. destruct (Version h) eqn:Hv.
    + unfold call in H. run. by rewrite Hv in H.
    + unfold call in H. run. rewrite Hv in H. simpl in H. by injection H as <-.
  - intros H. right. left. exists versionStr. unfold call, mbind, M_bind in H.
    destruct (Version h) as [v|] eqn:Hv.
    + rewrite (IsVersionAtLeast_set _ _ v Hv) in H.
      destruct (semver.NewVersion versionStr); simpl in H; [done |].
      by injection H as <-.
    + by rewrite (IsVersionAtLeast_unset _ _ Hv) in H.
Qed.

(** ** C9: what a call may change *)

Global Instance extends_preorder : PreOrder extends.
Proof.
  split.
  - intros h. by split.
  - intros h1 h2 h3 [] []. split; try (etrans; eassumption); congruence.
Qed.

Lemma prefix_snoc {A} (l : list A) (x : A) : l `prefix_of` l ++ [x].
Proof. by apply prefix_app_r. Qed.

#[local] Hint Resolve prefix_snoc : core.

Lemma call_extends (c : Call) (h : Helm) : extends h (after (call c h)).
Proof.
  destruct c; destruct h; run;
    repeat (case_match; simplify_eq/=); split; simpl; auto.
Qed.

Lemma calls_extends (cs : list Call) (h : Helm) : extends h (after (calls cs h)).
Proof.
  revert h. induction cs as [|c cs IH]; intros h; [done |].
  pose proof (call_extends c h) as Hc. simpl. unfold mbind, M_bind at 1.
  destruct (result (call c h)); simpl; [|done].
  etrans; [exact Hc |]. specialize (IH (after (call c h))).
  unfold mbind, M_bind, mret, M_ret.
  by destruct (result (calls cs (after (call c h)))).
Qed.

(** C9, amended. Over every sequence of calls, each of the lists Charts,
    Releases, Deleted, Linted, Templated and Diffed only grows at its end,
    what it held before staying in place, and the expectation maps and the
    rest of the configuration are not touched. Repo is not such a list:
    AddRepo sets it to the ten arguments of that one call. *)
Theorem C9_append_only
    (cs : list Call) (h : Helm)
    (name repository cafile certfile keyfile username password managed : string)
    (passCredentials skipTLSVerify : bool) :
  extends h (after (calls cs h)) ∧
  Repo (after (AddRepo name repository cafile certfile keyfile username password
                       managed passCredentials skipTLSVerify h))
  = [name; repository; cafile; certfile; keyfile; username; password; managed;
     Sprint_bool passCredentials; Sprint_bool skipTLSVerify].
Proof. split; [apply calls_extends | done]. Qed.

(** C9 as stated fails for repeated AddRepo: the second call drops what the
    first recorded. *)
Lemma C9_counterexample_AddRepo :
  let first := CAddRepo "stable" "https://charts.example/stable" "" "" "" "" ""
                        "" false false in
  let second := CAddRepo "incubator" "https://charts.example/incubator" "" "" ""
                         "" "" "" false false in
  let h1 := after (call first Helm_zero) in
  "stable" ∈ Repo h1 ∧
  ("stable" ∉ Repo (after (call second h1))) ∧
  ¬ keeps_Repo_records second h1.
Proof.
  assert (Hin : "stable" ∈ Repo (after (call
            (CAddRepo "stable" "https://charts.example/stable" "" "" "" "" ""
                      "" false false) Helm_zero))) by (vm_compute; set_solver).
  assert (Hout : "stable" ∉ Repo (after (call
            (CAddRepo "incubator" "https://charts.example/incubator" "" "" ""
                      "" "" "" false false)
            (after (call (CAddRepo "stable" "https://charts.example/stable" ""
                            "" "" "" "" "" false false) Helm_zero))))).
  { vm_compute. intros H. repeat (apply elem_of_cons in H as [H|H]; [discriminate|]).
    by apply elem_of_nil in H. }
  cbv zeta. repeat split; [done.. |]. intros H. by apply Hout, H.
Qed.

(** ** C5: locks *)

Lemma DiffRelease_guarded name chart suppressDiff flags h :
  guarded h [] (log (DiffRelease name chart suppressDiff flags h)) = true.
Proof.
  rewrite DiffRelease_log. destruct h as [? ? ? ? ? ? ? ? ? ? ? ? ? [mu|] ? ?]; simpl.
  - rewrite bool_decide_true; [done | set_solver].
  - done.
Qed.

Lemma SyncRelease_guarded name chart flags h :
  guarded h [] (log (SyncRelease name chart flags h)) = true.
Proof.
  destruct h as [? ? ? ? ? ? ? ? ? ? ? ? ? ? [cm|] [rm|]]; run;
    destruct (Contains name "error"); simpl; try done;
    rewrite ?decide_True by done; simpl;
    rewrite ?bool_decide_true by set_solver; done.
Qed.

(** C5, at the failing input: with ReleasesMutex configured, ReleaseStatus
    appends to Releases without taking it; its run is the one assignment. *)
Theorem C5_ReleaseStatus_unguarded (mu : Mutex) :
  let h := helm_with_ReleasesMutex mu in
  let r := ReleaseStatus "app" ["--namespace"; "prod"] h in
  guard h FReleases = Some mu ∧
  result r = Returned None ∧
  Releases (after r) = [mkRelease "app" ["--namespace"; "prod"]] ∧
  log r = [EvAssign FReleases] ∧
  guarded h [] (log r) = false.
Proof. repeat split. Qed.

(** The same slip in the other methods that append to Releases or Charts
    outside [sync]. *)
Lemma unguarded_appends (mu : Mutex) (h : Helm) (name chart : string)
                        (flags : list string) :
  Contains name "error" = false → Contains chart "error" = false →
  (ReleasesMutex h = Some mu →
   guarded h [] (log (ReleaseStatus name flags h)) = false ∧
   guarded h [] (log (TestRelease name flags h)) = false) ∧
  (ChartsMutex h = Some mu →
   guarded h [] (log (UpdateDeps chart h)) = false ∧
   guarded h [] (log (BuildDeps name chart flags h)) = false).
Proof.
  intros Hn Hc. split; intros Hm; destruct h; run; rewrite ?Hn, ?Hc; simpl;
    simplify_eq/=; repeat (case_match; simplify_eq/=);
    rewrite ?bool_decide_false by set_solver; done.
Qed.

(** ** Concurrent calls of DiffRelease: what the mutex buys *)

Lemma records_insert_same (gs : list (Release * pc)) i rec p p' :
  gs !! i = Some (rec, p) → appended p' = appended p →
  records (<[i := (rec, p')]> gs) = records gs.
Proof.
  intros Hi Hp. rewrite insert_take_drop by (by eapply lookup_lt_Some).
  rewrite <- (take_drop_middle gs i _ Hi) at 3.
  unfold records. rewrite !omap_app. simpl. by rewrite Hp.
Qed.

Lemma records_insert_new (gs : list (Release * pc)) i rec p p' :
  gs !! i = Some (rec, p) → appended p = false → appended p' = true →
  records (<[i := (rec, p')]> gs) ≡ₚ records gs ++ [rec].
Proof.
  intros Hi Hp Hp'. rewrite insert_take_drop by (by eapply lookup_lt_Some).
  rewrite <- (take_drop_middle gs i _ Hi) at 3.
  unfold records. rewrite !omap_app. simpl. rewrite Hp, Hp'.
  rewrite <- Permutation_middle. apply Permutation_cons_append.
Qed.

Lemma calls_insert (gs : list (Release * pc)) i rec p p' :
  gs !! i = Some (rec, p) → (<[i := (rec, p')]> gs).*1 = gs.*1.
Proof.
  intros Hi. rewrite list_fmap_insert. simpl.
  apply list_insert_id. by rewrite list_lookup_fmap, Hi.
Qed.

Lemma start_calls (recs : list Release) :
  ((λ rec, (rec, AtLock)) <$> recs).*1 = recs.
Proof. induction recs as [|rec recs IH]; [done |]. rewrite !fmap_cons. by f_equal. Qed.

Lemma start_records (recs : list Release) :
  records ((λ rec, (rec, AtLock)) <$> recs) = [].
Proof. by induction recs. Qed.

Lemma start_lookup (recs : list Release) i g :
  ((λ rec, (rec, AtLock)) <$> recs) !! i = Some g → g.2 = AtLock.
Proof. rewrite list_lookup_fmap. by destruct (recs !! i); intros [= <-]. Qed.

Lemma mutex_inv_start (d0 recs : list Release) : mutex_inv d0 recs (start d0 recs).
Proof.
  split; simpl.
  - apply start_calls.
  - by rewrite start_records, app_nil_r.
  - intros _ i g Hg. by rewrite (start_lookup _ _ _ Hg).
  - intros i j g g' Hg _ Hh. by rewrite (start_lookup _ _ _ Hg) in Hh.
  - intros i g Hg Hh. by rewrite (start_lookup _ _ _ Hg) in Hh.
  - done.
  - intros i rec seen Hg. by apply start_lookup in Hg.
Qed.

(** Every step under a configured mutex keeps the invariant. *)
Lemma mutex_inv_step (d0 recs : list Release) (i : nat) (s s' : machine) :
  mutex_inv d0 recs s → step true i s = Some s' → mutex_inv d0 recs s'.
Proof.
  intros [Hcalls Hdiffed Hfree Hholder Hheld Hlocked Hseen] Hstep.
  destruct s as [d l gs]. unfold step in Hstep. simpl in *.
  destruct (gs !! i) as [[rec p]|] eqn:Hi; [|done].
  pose proof (lookup_lt_Some _ _ _ Hi) as Hlt.
  assert (Hothers : ∀ j g, i ≠ j → gs !! j = Some g →
                           holds_lock p = true → holds_lock g.2 = false).
  { intros j g Hne Hj Hp. destruct (holds_lock g.2) eqn:Hg; [|done].
    destruct Hne. by eapply (Hholder i j (rec, p) g). }
  assert (Hsole : ∀ p' j k g g',
            holds_lock p = true ∨ l = false →
            <[i := (rec, p')]> gs !! j = Some g →
            <[i := (rec, p')]> gs !! k = Some g' →
            holds_lock g.2 = true → holds_lock g'.2 = true → j = k).
  { intros p' j k g g' Hp Hj Hk Hg Hg'.
    assert (Hidle : ∀ n x, i ≠ n → gs !! n = Some x → holds_lock x.2 = false).
    { intros n x Hne Hn. destruct Hp as [Hp | ->]; [by eapply Hothers |].
      by eapply Hfree. }
    apply list_lookup_insert_Some in Hj as [(<- & _)|[Hne Hj]];
      apply list_lookup_insert_Some in Hk as [(<- & _)|[Hne' Hk]]; try done.
    - by rewrite (Hidle _ _ Hne' Hk) in Hg'.
    - by rewrite (Hidle _ _ Hne Hj) in Hg.
    - by rewrite (Hidle _ _ Hne Hj) in Hg. }
  assert (Hnew : ∀ p', <[i := (rec, p')]> gs !! i = Some (rec, p'))
    by (intros p'; by apply list_lookup_insert_eq).
  destruct p as [| |seen| |]; simplify_eq/=.
  - (* Lock *)
    destruct l; [done |]. simplify_eq/=. specialize (Hfree eq_refl).
    split; simpl.
    + by rewrite (calls_insert _ _ _ AtLock).
    + by rewrite (records_insert_same _ _ _ AtLock).
    + done.
    + eauto.
    + done.
    + intros _. by exists i, (rec, AtLoad).
    + intros j rec' seen Hj.
      apply list_lookup_insert_Some in Hj as [(_ & [=] & _)|[Hne Hj]].
      by pose proof (Hfree _ _ Hj).
  - (* the load of helm.Diffed *)
    pose proof (Hheld _ _ Hi eq_refl) as ->.
    split; simpl.
    + by rewrite (calls_insert _ _ _ AtLoad).
    + by rewrite (records_insert_same _ _ _ AtLoad).
    + done.
    + eauto.
    + done.
    + intros _. by exists i, (rec, AtStore d).
    + intros j rec' seen Hj.
      apply list_lookup_insert_Some in Hj as [(_ & [=] & _)|[Hne Hj]]; [done |].
      by pose proof (Hothers _ _ Hne Hj eq_refl).
  - (* the store to helm.Diffed *)
    pose proof (Hheld _ _ Hi eq_refl) as ->.
    pose proof (Hseen _ _ _ Hi) as ->.
    split; simpl.
    + by rewrite (calls_insert _ _ _ (AtStore d)).
    + rewrite (records_insert_new _ _ _ (AtStore d)) by done.
      by rewrite Hdiffed, app_assoc.
    + done.
    + eauto.
    + done.
    + intros _. by exists i, (rec, AtUnlock).
    + intros j rec' seen Hj.
      apply list_lookup_insert_Some in Hj as [(_ & [=] & _)|[Hne Hj]].
      by pose proof (Hothers _ _ Hne Hj eq_refl).
  - (* Unlock *)
    split; simpl.
    + by rewrite (calls_insert _ _ _ AtUnlock).
    + by rewrite (records_insert_same _ _ _ AtUnlock).
    + intros _ j g Hj.
      apply list_lookup_insert_Some in Hj as [(_ & <- & _)|[Hne Hj]]; [done |].
      by eapply Hothers.
    + eauto.
    + intros j g Hj Hg.
      apply list_lookup_insert_Some in Hj as [(_ & <- & _)|[Hne Hj]]; [done |].
      by rewrite (Hothers _ _ Hne Hj eq_refl) in Hg.
    + done.
    + intros j rec' seen Hj.
      apply list_lookup_insert_Some in Hj as [(_ & [=] & _)|[Hne Hj]].
      by pose proof (Hothers _ _ Hne Hj eq_refl).
Qed.

Lemma mutex_inv_schedule (d0 recs : list Release) (order : list nat) (s s' : machine) :
  mutex_inv d0 recs s → schedule true order s = Some s' → mutex_inv d0 recs s'.
Proof.
  revert s. induction order as [|i order IH]; intros s Hinv Hs; simpl in Hs.
  - by injection Hs as <-.
  - destruct (step true i s) as [s1|] eqn:Hstep; [|done].
    eapply IH; [|exact Hs]. by eapply mutex_inv_step.
Qed.

Lemma records_all_finished (gs : list (Release * pc)) :
  forallb (λ g, finished g.2) gs = true → records gs = gs.*1.
Proof.
  induction gs as [|[rec p] gs IH]; [done |]. intros Hall.
  change (finished p && forallb (λ g, finished g.2) gs = true) in Hall.
  apply andb_true_iff in Hall as [Hp Hgs]. destruct p; try done.
  rewrite fmap_cons.
  change (records ((rec, Finished) :: gs)) with (rec :: records gs).
  f_equal. by apply IH.
Qed.

(** With the mutex configured, whatever the interleaving: once the N calls
    are through, the list holds what it held before and the N records, each
    once. *)
Lemma Diff_concurrent_length (d0 recs : list Release) (order : list nat) (s : machine) :
  schedule true order (start d0 recs) = Some s →
  all_finished s = true →
  diffed s ≡ₚ d0 ++ recs ∧ length (diffed s) = (length d0 + length recs)%nat.
Proof.
  intros Hs Hfin.
  pose proof (mutex_inv_schedule _ _ _ _ _ (mutex_inv_start d0 recs) Hs)
    as [Hcalls Hdiffed _ _ _ _ _].
  rewrite (records_all_finished _ Hfin), Hcalls in Hdiffed.
  split; [done |]. by rewrite Hdiffed, length_app.
Qed.

(** No interleaving gets stuck: until all calls are through, some goroutine
    can move. *)
Lemma Diff_concurrent_progress (d0 recs : list Release) (order : list nat) (s : machine) :
  schedule true order (start d0 recs) = Some s →
  all_finished s = false →
  ∃ i, is_Some (step true i s).
Proof.
  intros Hs Hfin.
  pose proof (mutex_inv_schedule _ _ _ _ _ (mutex_inv_start d0 recs) Hs)
    as [_ _ Hfree _ _ Hlocked _].
  destruct (locked s) eqn:Hl.
  - destruct (Hlocked eq_refl) as (j & [rec p] & Hj & Hp).
    exists j. unfold step. rewrite Hj. by destruct p.
  - assert (∃ i rec p, goroutines s !! i = Some (rec, p) ∧ finished p = false)
      as (i & rec & p & Hi & Hp).
    { unfold all_finished in Hfin. clear -Hfin.
      induction (goroutines s) as [|[rec p] gs IH]; [done |].
      simpl in Hfin. destruct (finished p) eqn:Hp.
      - destruct (IH Hfin) as (i & rec' & p' & Hi & Hp'). by exists (S i), rec', p'.
      - by exists 0%nat, rec, p. }
    exists i. unfold step. rewrite Hi, Hl.
    pose proof (Hfree eq_refl _ _ Hi) as Hh. by destruct p.
Qed.

(** Two calls, the second taking the mutex once the first has let go. *)
Example Diff_concurrent_two :
  let a := mkRelease "app" ["--flag"] in
  let b := mkRelease "db" [] in
  (diffed <$> schedule true [0; 0; 0; 0; 1; 1; 1; 1]%nat (start [] [a; b])) = Some [a; b] ∧
  (diffed <$> schedule true [1; 1; 0]%nat (start [] [a; b])) = None ∧
  (diffed <$> schedule true [1; 1; 1; 1; 0; 0; 0; 0]%nat (start [] [a; b])) = Some [b; a].
Proof. repeat split. Qed.

(** Without the mutex an interleaving of the two appends loses a record. *)
Example Diff_concurrent_unguarded :
  let a := mkRelease "app" ["--flag"] in
  let b := mkRelease "db" [] in
  match schedule false [0; 1; 0; 1; 0; 1; 0; 1]%nat (start [] [a; b]) with
  | Some s => all_finished s = true ∧ diffed s = [b]
  | None => False
  end.
Proof. repeat split. Qed.

(** ** The scenarios of the specification *)

Example scenario_UpdateDeps :
  let r1 := UpdateDeps "broken-error-chart" Helm_zero in
  let r2 := UpdateDeps "ok-chart" (after r1) in
  result r1 = Returned (Some (errorString
                "simulated UpdateDeps failure for chart: broken-error-chart")) ∧
  Charts (after r1) = [] ∧
  result r2 = Returned None ∧
  Charts (after r2) = ["ok-chart"].
Proof. repeat split. Qed.

Example scenario_DiffRelease :
  let r1 := DiffRelease "app" "chart-x" false ["--flag"] scenario_helm in
  let r2 := DiffRelease "other" "chart-x" false ["--flag"] (after r1) in
  result r1 = Returned None ∧
  result r2 = Returned (Some (errorString
                "unexpected diff with key: {other chart-x --flag}")) ∧
  Diffed (after r2) = [mkRelease "app" ["--flag"]; mkRelease "other" ["--flag"]].
Proof. by vm_compute. Qed.

Example scenario_SyncRelease_locks :
  log (SyncRelease "app" "chart-x" ["--flag"]
         (mkHelm [] [] [] [] [] [] None None [] false false None None None
                 (Some 2%positive) (Some 1%positive) false))
  = [EvLock 1%positive; EvAssign FReleases; EvUnlock 1%positive;
     EvLock 2%positive; EvAssign FCharts; EvUnlock 2%positive].
Proof. reflexivity. Qed.

(** * Further properties of the methods *)

(** ** The observation lists as the history of the calls *)

Lemma call_history (c : Call) (h : Helm) :
  let h' := after (call c h) in
  Charts h' = Charts h ++ option_list (history_Charts c) ∧
  Releases h' = Releases h ++ option_list (history_Releases c) ∧
  Deleted h' = Deleted h ++ option_list (history_Deleted c) ∧
  Linted h' = Linted h ++ option_list (history_Linted c) ∧
  Templated h' = Templated h ++ option_list (history_Templated c) ∧
  Diffed h' = Diffed h ++ option_list (history_Diffed c) ∧
  Repo h' = default (Repo h) (history_Repo c).
Proof.
  destruct c; destruct h;
    unfold history_Charts, history_Releases, history_Deleted, history_Linted,
      history_Templated, history_Diffed, history_Repo; run;
    repeat (case_match; simplify_eq/=); rewrite ?app_nil_r; done.
Qed.

Lemma calls_cons_returned (c : Call) (cs : list Call) (h : Helm) (vs : list Value) :
  result (calls (c :: cs) h) = Returned vs →
  ∃ v vs', result (call c h) = Returned v ∧
           result (calls cs (after (call c h))) = Returned vs' ∧
           vs = v :: vs' ∧
           after (calls (c :: cs) h) = after (calls cs (after (call c h))) ∧
           log (calls (c :: cs) h)
           = log (call c h) ++ log (calls cs (after (call c h))).
Proof.
  simpl. unfold mbind, M_bind, mret, M_ret.
  destruct (result (call c h)) as [v|p] eqn:Hc; simpl; [|done].
  destruct (result (calls cs (after (call c h)))) as [vs'|p] eqn:Hcs; simpl; [|done].
  intros [= <-]. exists v, vs'. by rewrite app_nil_r.
Qed.

Lemma omap_cons_option_list {A B} (f : A → option B) (x : A) (l : list A) :
  omap f (x :: l) = option_list (f x) ++ omap f l.
Proof. simpl. by destruct (f x). Qed.

Lemma length_omap_filter {A B} (f : A → option B) (l : list A) :
  length (omap f l) = length (filter (λ x, is_Some (f x)) l).
Proof.
  induction l as [|x l IH]; [done |].
  rewrite omap_cons_option_list, length_app, filter_cons, IH.
  destruct (f x).
  - by rewrite decide_True by eauto.
  - by rewrite decide_False by (by intros [? ?]).
Qed.

Lemma calls_history (cs : list Call) (h : Helm) (vs : list Value) :
  result (calls cs h) = Returned vs →
  let h' := after (calls cs h) in
  Charts h' = Charts h ++ omap history_Charts cs ∧
  Releases h' = Releases h ++ omap history_Releases cs ∧
  Deleted h' = Deleted h ++ omap history_Deleted cs ∧
  Linted h' = Linted h ++ omap history_Linted cs ∧
  Templated h' = Templated h ++ omap history_Templated cs ∧
  Diffed h' = Diffed h ++ omap history_Diffed cs ∧
  Repo h' = default (Repo h) (last (omap history_Repo cs)).
Proof.
  revert h vs. induction cs as [|c cs IH]; intros h vs Hr; cbv zeta.
  - simpl. by rewrite !app_nil_r.
  - apply calls_cons_returned in Hr as (v & vs' & _ & Hcs & _ & Hafter & _).
    rewrite Hafter.
    destruct (IH _ _ Hcs) as (-> & -> & -> & -> & -> & -> & ->).
    destruct (call_history c h) as (-> & -> & -> & -> & -> & -> & ->).
    rewrite !omap_cons_option_list, <- !app_assoc. repeat split.
    destruct (history_Repo c) as [repo|]; simpl; [|done].
    rewrite last_cons. by destruct (last (omap history_Repo cs)).
Qed.

(** X1. Over a test body that runs through without panic, Charts ends as
    what it held before followed by the charts of the UpdateDeps, BuildDeps
    and SyncRelease calls that passed their sentinel check, in call order; and
    Releases as what it held before followed by one record (name, flags) per
    SyncRelease, ReleaseStatus and TestRelease call whose name is free of the
    sentinel, in call order: the three methods share the list. *)
Theorem X1_Charts_Releases_history (cs : list Call) (h : Helm) (vs : list Value) :
  result (calls cs h) = Returned vs →
  Charts (after (calls cs h)) = Charts h ++ omap history_Charts cs ∧
  Releases (after (calls cs h)) = Releases h ++ omap history_Releases cs.
Proof.
  intros Hr. destruct (calls_history cs h vs Hr) as (HC & HR & _). by split.
Qed.

Lemma X1_Charts_Releases_history_witness :
  Charts (after (calls sample_calls Helm_zero)) = ["charts/app"; "charts/db"] ∧
  Releases (after (calls sample_calls Helm_zero))
  = [mkRelease "app" ["--wait"]; mkRelease "app" []; mkRelease "app" ["--cleanup"]].
Proof.
  exact (X1_Charts_Releases_history sample_calls Helm_zero _ eq_refl).
Defined.

(** X2. Over a test body that runs through without panic, each of Deleted,
    Linted and Templated ends as what it held before followed by one record
    (name, flags) per call of its one method (DeleteRelease, Lint,
    TemplateRelease) whose name is free of the sentinel, in call order; no
    other method writes to them. *)
Theorem X2_Deleted_Linted_Templated_history
    (cs : list Call) (h : Helm) (vs : list Value) :
  result (calls cs h) = Returned vs →
  Deleted (after (calls cs h)) = Deleted h ++ omap history_Deleted cs ∧
  Linted (after (calls cs h)) = Linted h ++ omap history_Linted cs ∧
  Templated (after (calls cs h)) = Templated h ++ omap history_Templated cs.
Proof.
  intros Hr. destruct (calls_history cs h vs Hr) as (_ & _ & HD & HL & HT & _).
  by repeat split.
Qed.

Lemma X2_Deleted_Linted_Templated_history_witness :
  Deleted (after (calls sample_calls Helm_zero)) = [mkRelease "old" ["--purge"]] ∧
  Linted (after (calls sample_calls Helm_zero)) = [mkRelease "app" []] ∧
  Templated (after (calls sample_calls Helm_zero)) = [].
Proof.
  exact (X2_Deleted_Linted_Templated_history sample_calls Helm_zero _ eq_refl).
Defined.

(** X3. Over a test body that runs through without panic, Diffed ends as what
    it held before followed by one record (name, flags) per DiffRelease call,
    in call order, whatever each call returned and whatever its name: the
    list grows by the number of DiffRelease calls. *)
Theorem X3_Diffed_history (cs : list Call) (h : Helm) (vs : list Value) :
  result (calls cs h) = Returned vs →
  Diffed (after (calls cs h)) = Diffed h ++ omap history_Diffed cs ∧
  length (Diffed (after (calls cs h)))
  = (length (Diffed h) + length (filter (λ c, is_Some (history_Diffed c)) cs))%nat.
Proof.
  intros Hr. destruct (calls_history cs h vs Hr) as (_ & _ & _ & _ & _ & HD & _).
  split; [done |]. by rewrite HD, length_app, length_omap_filter.
Qed.

Lemma X3_Diffed_history_witness :
  Diffed (after (calls sample_calls Helm_zero)) = [mkRelease "error-app" []] ∧
  length (Diffed (after (calls sample_calls Helm_zero))) = 1%nat.
Proof.
  exact (X3_Diffed_history sample_calls Helm_zero _ eq_refl).
Defined.

(** X4. Over a test body that runs through without panic, Repo ends as the
    ten-entry argument tuple of the last AddRepo call, earlier ones leaving no
    trace, or as it was when there is no AddRepo call. *)
Theorem X4_Repo_last_AddRepo (cs : list Call) (h : Helm) (vs : list Value) :
  result (calls cs h) = Returned vs →
  Repo (after (calls cs h)) = default (Repo h) (last (omap history_Repo cs)) ∧
  (Repo (after (calls cs h)) = Repo h ∨ length (Repo (after (calls cs h))) = 10%nat).
Proof.
  intros Hr. destruct (calls_history cs h vs Hr) as (_ & _ & _ & _ & _ & _ & HR).
  split; [done |]. rewrite HR.
  destruct (last (omap history_Repo cs)) as [repo|] eqn:Hlast; [|by left].
  right. simpl. apply last_Some in Hlast as [l Hl].
  assert (Hin : repo ∈ omap history_Repo cs) by (rewrite Hl; set_solver).
  apply list_elem_of_omap in Hin as (c & _ & Hc).
  destruct c; simpl in Hc; by simplify_eq.
Qed.

Lemma X4_Repo_last_AddRepo_witness :
  Repo (after (calls sample_calls Helm_zero))
  = ["incubator"; "https://charts.example/incubator"; ""; ""; ""; ""; ""; "";
     "true"; "false"].
Proof.
  exact (proj1 (X4_Repo_last_AddRepo sample_calls Helm_zero _ eq_refl)).
Defined.

(** ** Calls that leave no trace, calls that cannot fail *)

(** X5. Every call of a method other than the ten with an assignment in their
    body (UpdateDeps, BuildDeps, AddRepo, SyncRelease, DiffRelease,
    ReleaseStatus, DeleteRelease, TestRelease, Lint, TemplateRelease) leaves
    the double exactly as it was and takes no lock, also when it panics. The
    four setters, AddRepo, UpdateRepo, RegistryLogin, DecryptSecret, Fetch,
    ChartPull and ChartExport return with a nil error whatever their arguments
    and whatever the double holds, the sentinel in a name or chart included. *)
Theorem X5_traceless_and_infallible_calls (c : Call) (h : Helm) :
  (recording c = false → after (call c h) = h ∧ log (call c h) = []) ∧
  (always_succeeds c = true →
   ∃ v, result (call c h) = Returned v ∧ error_of v = None).
Proof.
  split; intros Hc; destruct c; try discriminate Hc;
    try (destruct h; run; repeat (case_match; simplify_eq/=); eauto; done).
Qed.

Lemma X5_traceless_and_infallible_calls_witness :
  (after (call (CIsVersionAtLeast "not-a-version") (helm_at "3.2.0")) = helm_at "3.2.0" ∧
   log (call (CIsVersionAtLeast "not-a-version") (helm_at "3.2.0")) = []) ∧
  ∃ v, result (call (CFetch "charts/error" ["--untar"]) scenario_helm) = Returned v ∧
       error_of v = None.
Proof.
  split.
  - exact (proj1 (X5_traceless_and_infallible_calls
                    (CIsVersionAtLeast "not-a-version") (helm_at "3.2.0")) eq_refl).
  - exact (proj2 (X5_traceless_and_infallible_calls
                    (CFetch "charts/error" ["--untar"]) scenario_helm) eq_refl).
Defined.

(** X6. A call of BuildDeps, SyncRelease, ReleaseStatus, DeleteRelease,
    TestRelease, Lint or TemplateRelease whose inspected string (the chart for
    BuildDeps, the name for the others) is free of the sentinel returns nil,
    whatever its other arguments: a sentinel in the chart of SyncRelease, Lint
    or TemplateRelease, in the name of BuildDeps or in any flag does not make
    the call fail. *)
Theorem X6_success_without_sentinel (c : Call) (s : string) (h : Helm) :
  sentinel_input c = Some s →
  Contains s "error" = false →
  match c with
  | CUpdateDeps _ => True
  | _ => result (call c h) = Returned (VError None)
  end.
Proof.
  intros Hin Hs.
  destruct c; simpl in Hin; try discriminate; injection Hin as ->; [done | ..];
    destruct h; run; rewrite Hs; simpl; repeat (case_match; simplify_eq/=); done.
Qed.

Lemma X6_success_without_sentinel_witness :
  result (call (CSyncRelease "app" "charts/error" ["--set"; "mode=error"]) scenario_helm)
  = Returned (VError None).
Proof.
  exact (X6_success_without_sentinel
           (CSyncRelease "app" "charts/error" ["--set"; "mode=error"]) "app"
           scenario_helm eq_refl eq_refl).
Defined.

(** ** UpdateDeps and its callbacks *)

Lemma UpdateDeps_result (chart : string) (h : Helm) :
  Contains chart "error" = false →
  result (UpdateDeps chart h)
  = match UpdateDepsCallbacks h with
    | None => Returned None
    | Some callbacks =>
        match callbacks !! chart with
        | None => Returned None
        | Some None => Panicked NilDereference
        | Some (Some callback) => callback chart
        end
    end.
Proof.
  intros Hs. destruct h as [? ? ? ? ? ? ? ? ? ? ? ? cbs]; run. rewrite Hs. simpl.
  unfold callback_func in *. destruct cbs as [callbacks|]; simpl; [|done].
  by destruct (callbacks !! chart) as [[f|]|]; simpl; [destruct (f chart) as [[e|]|] |..].
Qed.

(** X7. On a chart free of the sentinel, UpdateDeps first appends the chart to
    Charts, without lock, and the double is otherwise as before whatever
    follows. It then answers from the callback registered under exactly that
    chart: nil when the registry is nil or has no entry for the chart;
    otherwise what the callback returns for the chart, its error as it is or
    nil; and a panic when the callback panics or the registered func is nil. *)
Theorem X7_UpdateDeps_callback (chart : string) (h : Helm) :
  Contains chart "error" = false →
  after (UpdateDeps chart h) = assign FCharts (Charts h ++ [chart]) h ∧
  log (UpdateDeps chart h) = [EvAssign FCharts] ∧
  result (UpdateDeps chart h)
  = match UpdateDepsCallbacks h with
    | None => Returned None
    | Some callbacks =>
        match callbacks !! chart with
        | None => Returned None
        | Some None => Panicked NilDereference
        | Some (Some callback) => callback chart
        end
    end.
Proof.
  intros Hs. repeat split; [| |by apply UpdateDeps_result];
    destruct h; run; rewrite Hs; simpl; repeat (case_match; simplify_eq/=); done.
Qed.

Lemma X7_UpdateDeps_callback_witness :
  Charts (after (UpdateDeps "charts/bad" callbacks_helm)) = ["charts/base"; "charts/bad"] ∧
  result (UpdateDeps "charts/bad" callbacks_helm)
  = Returned (Some (errorString "cannot update charts/bad")) ∧
  result (UpdateDeps "charts/good" callbacks_helm) = Returned None ∧
  result (UpdateDeps "charts/other" callbacks_helm) = Returned None ∧
  result (UpdateDeps "charts/nil" callbacks_helm) = Panicked NilDereference ∧
  Charts (after (UpdateDeps "charts/nil" callbacks_helm)) = ["charts/base"; "charts/nil"].
Proof.
  destruct (X7_UpdateDeps_callback "charts/bad" callbacks_helm eq_refl) as (Ha & _ & Hr).
  destruct (X7_UpdateDeps_callback "charts/good" callbacks_helm eq_refl) as (_ & _ & Hg).
  destruct (X7_UpdateDeps_callback "charts/other" callbacks_helm eq_refl) as (_ & _ & Ho).
  destruct (X7_UpdateDeps_callback "charts/nil" callbacks_helm eq_refl) as (Hna & _ & Hn).
  rewrite Ha, Hr, Hg, Ho, Hn, Hna. by vm_compute.
Defined.

(** ** Panics *)

(** X8. A call panics in exactly three situations: GetVersion on a double
    without version (nil dereference); IsVersionAtLeast with an argument that
    does not parse on a double with a version; UpdateDeps on a chart free of
    the sentinel whose registered callback is a nil func or panics itself.
    Every other call returns. In the first two the double is left as it
    was. *)
Theorem X8_panics_exactly (c : Call) (h : Helm) (p : panic) :
  (result (call c h) = Panicked p ↔
   (c = CGetVersion ∧ Version h = None ∧ p = NilDereference) ∨
   (∃ versionStr, c = CIsVersionAtLeast versionStr ∧ is_Some (Version h) ∧
                  semver.NewVersion versionStr = None ∧ p = InvalidVersion versionStr) ∨
   (∃ chart callbacks callback,
      c = CUpdateDeps chart ∧ Contains chart "error" = false ∧
      UpdateDepsCallbacks h = Some callbacks ∧
      callbacks !! chart = Some callback ∧
      match callback with
      | None => p = NilDereference
      | Some f => f chart = Panicked p
      end)) ∧
  (c = CGetVersion ∨ (∃ versionStr, c = CIsVersionAtLeast versionStr) →
   after (call c h) = h).
Proof.
  split; [split |].
  - intros Hp. destruct (call_panics_only c h p Hp)
      as [?|[?|(chart & callbacks & callback & -> & Hcb & Hl & Hf)]]; [by left | by right; left |].
    do 2 right. exists chart, callbacks, callback. repeat split; try done.
    destruct (Contains chart "error") eqn:Hs; [|done].
    unfold call in Hp. run. by rewrite Hs in Hp.
  - intros [(-> & Hv & ->)|[(versionStr & -> & [v Hv] & Hbad & ->)
                           |(chart & callbacks & callback & -> & Hs & Hcb & Hl & Hf)]].
    + unfold call. run. by rewrite Hv.
    + unfold call, mbind, M_bind. by rewrite (IsVersionAtLeast_set _ _ v Hv), Hbad.
    + unfold call, mbind, M_bind.
      rewrite (UpdateDeps_result chart h Hs), Hcb, Hl. destruct callback as [f|]; [by rewrite Hf | by subst].
  - intros [->|[versionStr ->]]; destruct h; run;
      repeat (case_match; simplify_eq/=); done.
Qed.

(** ** The version queries together *)

Lemma IsHelm3_run (h : Helm) :
  IsHelm3 h
  = mkRun (Returned match Version h with
                    | None => Helm3 h
                    | Some v => semver.major v =? 3
                    end) h [].
Proof. run. by destruct (Version h). Qed.

Lemma int_of_uint64_inj (x y : Z) :
  0 ≤ x < 2 ^ 64 → 0 ≤ y < 2 ^ 64 → int_of_uint64 x = int_of_uint64 y → x = y.
Proof.
  unfold int_of_uint64. change (2 ^ 64) with 18446744073709551616.
  change (2 ^ 63) with 9223372036854775808. intros Hx Hy H.
  Z.div_mod_to_equations. lia.
Qed.

(** Between release versions the answer is read off the triples. *)
Lemma IsVersionAtLeast_release (h : Helm) (v ver : semver.Version) (versionStr : string) :
  Version h = Some v → semver.NewVersion versionStr = Some ver →
  semver.pre v = "" → semver.pre ver = "" →
  result (IsVersionAtLeast versionStr h)
  = Returned (if triple_compare v ver is Lt then false else true).
Proof.
  intros Hv Hver Hp Hpv. rewrite (IsVersionAtLeast_set _ _ v Hv), Hver. simpl.
  unfold semver.Equal, semver.GreaterThan. rewrite (Compare_release _ _ Hp Hpv).
  by destruct (triple_compare v ver).
Qed.

Lemma triple_compare_major (v : semver.Version) (n : Z) (original : string) :
  0 ≤ semver.minor v → 0 ≤ semver.patch v →
  (triple_compare v (semver.mkVersion n 0 0 "" "" original) ≠ Lt ↔ n ≤ semver.major v).
Proof.
  intros Hmin Hpat. unfold triple_compare. simpl.
  destruct (Z.compare_spec (semver.major v) n);
    destruct (Z.compare_spec (semver.minor v) 0);
    destruct (Z.compare_spec (semver.patch v) 0); split; (done || lia).
Qed.

(** X9. On a double configured with a release version (no pre-release tag),
    the three version queries agree: IsHelm3 is true exactly when the major
    number is 3, which is exactly when GetVersion reports Major 3 and exactly
    when IsVersionAtLeast("3.0.0") is true while IsVersionAtLeast("4.0.0") is
    false. The Helm3 flag plays no part once a version is configured. *)
Theorem X9_version_queries_agree (h : Helm) (v : semver.Version) :
  Version h = Some v →
  semver.pre v = "" →
  0 ≤ semver.major v < 2 ^ 64 → 0 ≤ semver.minor v → 0 ≤ semver.patch v →
  (result (IsHelm3 h) = Returned true ↔ semver.major v = 3) ∧
  (result (IsHelm3 h) = Returned true ↔
   ∃ gv, result (GetVersion h) = Returned gv ∧ Major gv = 3) ∧
  (result (IsHelm3 h) = Returned true ↔
   result (IsVersionAtLeast "3.0.0" h) = Returned true ∧
   result (IsVersionAtLeast "4.0.0" h) = Returned false).
Proof.
  intros Hv Hpre Hmaj Hmin Hpat.
  assert (H3 : result (IsHelm3 h) = Returned true ↔ semver.major v = 3).
  { rewrite IsHelm3_run, Hv. simpl. split.
    - intros [= H]. by apply Z.eqb_eq.
    - intros ->. done. }
  split; [exact H3 |]. split; rewrite H3.
  - rewrite (GetVersion_set _ _ Hv). simpl. split.
    + intros ->. by eexists.
    + intros (gv & [= <-] & Hgv). simpl in Hgv.
      apply int_of_uint64_inj; [done | done |].
      by rewrite Hgv.
  - rewrite (IsVersionAtLeast_release h v (semver.mkVersion 3 0 0 "" "" "3.0.0")
               "3.0.0" Hv eq_refl Hpre eq_refl).
    rewrite (IsVersionAtLeast_release h v (semver.mkVersion 4 0 0 "" "" "4.0.0")
               "4.0.0" Hv eq_refl Hpre eq_refl).
    pose proof (triple_compare_major v 3 "3.0.0" Hmin Hpat) as Hge3.
    pose proof (triple_compare_major v 4 "4.0.0" Hmin Hpat) as Hge4.
    destruct (triple_compare v (semver.mkVersion 3 0 0 "" "" "3.0.0")),
             (triple_compare v (semver.mkVersion 4 0 0 "" "" "4.0.0"));
      (split; [intros Hm; split; try done; exfalso | intros [H H']; try done]).
    all: try (assert (3 ≤ semver.major v) by (by apply Hge3)).
    all: try (assert (4 ≤ semver.major v) by (by apply Hge4)).
    all: try (assert (¬ 3 ≤ semver.major v) by (intros ?%Hge3; done)).
    all: try (assert (¬ 4 ≤ semver.major v) by (intros ?%Hge4; done)).
    all: lia.
Qed.

Lemma X9_version_queries_agree_witness :
  result (IsHelm3 (helm_at "v3.14.2+build")) = Returned true ↔
  result (IsVersionAtLeast "3.0.0" (helm_at "v3.14.2+build")) = Returned true ∧
  result (IsVersionAtLeast "4.0.0" (helm_at "v3.14.2+build")) = Returned false.
Proof.
  refine (proj2 (proj2 (X9_version_queries_agree (helm_at "v3.14.2+build")
                          (semver.mkVersion 3 14 2 "" "build" "v3.14.2+build")
                          eq_refl eq_refl _ _ _))); simpl; lia.
Defined.

Lemma comparePrePart_refl (s : string) : semver.comparePrePart s s = Eq.
Proof. unfold semver.comparePrePart. by rewrite String.eqb_refl. Qed.

Lemma comparePrerelease_refl (p : string) : semver.comparePrerelease p p = Eq.
Proof.
  unfold semver.comparePrerelease.
  induction (seq 0 _) as [|i js IH]; [done |].
  simpl. by rewrite comparePrePart_refl.
Qed.

(** Precedence looks at the numbers and the pre-release tag only. *)
Lemma Compare_same_precedence (v o : semver.Version) :
  semver.major v = semver.major o → semver.minor v = semver.minor o →
  semver.patch v = semver.patch o → semver.pre v = semver.pre o →
  semver.Compare v o = Eq.
Proof.
  intros Hmaj Hmin Hpat Hpre. unfold semver.Compare, semver.compareSegment.
  rewrite Hmaj, Hmin, Hpat, Hpre, !Z.compare_refl.
  destruct (String.eqb (semver.pre o) ""); [done |]. apply comparePrerelease_refl.
Qed.

(** X10. IsVersionAtLeast(X) is true on a double whose version has the
    numbers and the pre-release tag that X parses to: a double set up from a
    version string answers true for that same string, and build metadata (or
    how the string was written) makes no difference. *)
Theorem X10_IsVersionAtLeast_own_version
    (h : Helm) (v ver : semver.Version) (versionStr : string) :
  Version h = Some v →
  semver.NewVersion versionStr = Some ver →
  semver.major v = semver.major ver → semver.minor v = semver.minor ver →
  semver.patch v = semver.patch ver → semver.pre v = semver.pre ver →
  IsVersionAtLeast versionStr h = mkRun (Returned true) h [].
Proof.
  intros Hv Hver Hmaj Hmin Hpat Hpre.
  rewrite (IsVersionAtLeast_set _ _ v Hv), Hver. unfold semver.Equal.
  by rewrite (Compare_same_precedence _ _ Hmaj Hmin Hpat Hpre).
Qed.

Lemma X10_IsVersionAtLeast_own_version_witness :
  IsVersionAtLeast "v3.2-rc.1" (helm_at "3.2.0-rc.1+20240101")
  = mkRun (Returned true) (helm_at "3.2.0-rc.1+20240101") [].
Proof.
  exact (X10_IsVersionAtLeast_own_version (helm_at "3.2.0-rc.1+20240101") _ _
           "v3.2-rc.1" eq_refl eq_refl eq_refl eq_refl eq_refl eq_refl).
Defined.

(** ** Locks *)

Lemma lock_run_app (held held' : list Mutex) (tr tr' : list event) :
  lock_run held tr = Some held' → lock_run held (tr ++ tr') = lock_run held' tr'.
Proof.
  revert held. induction tr as [|[m|m|f] tr IH]; intros held; simpl.
  - by intros [= ->].
  - destruct (bool_decide (m ∈ held)); [done | apply IH].
  - destruct (bool_decide (m ∈ held)); [apply IH | done].
  - apply IH.
Qed.

#[local] Arguments lock_run : simpl never.
#[local] Arguments guarded : simpl never.

(** Evaluating [lock_run] and [guarded] on a log whose shape is known. *)
Ltac lock_eval :=
  cbv [lock_run guarded guard release_lock]; simpl;
  repeat first
    [ rewrite bool_decide_false by apply not_elem_of_nil
    | rewrite bool_decide_true by apply list_elem_of_here
    | rewrite decide_True by done ];
  try done.

Lemma call_lock_run (c : Call) (h : Helm) : lock_run [] (log (call c h)) = Some [].
Proof.
  destruct c; destruct h; run; repeat (case_match; simplify_eq/=); lock_eval.
Qed.

Lemma calls_log_cons (c : Call) (cs : list Call) (h : Helm) :
  log (calls (c :: cs) h)
  = log (call c h) ++
    match result (call c h) with
    | Returned _ => log (calls cs (after (call c h)))
    | Panicked _ => []
    end.
Proof.
  simpl. unfold mbind, M_bind, mret, M_ret.
  destruct (result (call c h)); simpl; [|by rewrite app_nil_r].
  destruct (result (calls cs (after (call c h)))); simpl; by rewrite ?app_nil_r.
Qed.

(** X11. A goroutine that runs any sequence of calls on the double handles
    the mutexes soundly, whichever of the three mutex fields are set and also
    when two or all of them hold the same mutex: it never locks a mutex it
    already holds (the mutex is not reentrant, that would block for good),
    never unlocks one it does not hold, and holds none once the calls are
    through or one of them has panicked. *)
Theorem X11_locks_balanced (cs : list Call) (h : Helm) :
  lock_run [] (log (calls cs h)) = Some [].
Proof.
  revert h. induction cs as [|c cs IH]; intros h; [done |].
  rewrite calls_log_cons, (lock_run_app _ _ _ _ (call_lock_run c h)).
  by destruct (result (call c h)).
Qed.

(** X12. Every method but the four that append outside [sync] (UpdateDeps,
    BuildDeps, ReleaseStatus, TestRelease) makes each of its assignments to
    Releases, Charts and Diffed while holding the mutex configured for that
    list; and on a double without ReleasesMutex and ChartsMutex every call
    does. *)
Theorem X12_appends_under_lock (c : Call) (h : Helm) :
  appends_outside_sync c = false ∨ (ReleasesMutex h = None ∧ ChartsMutex h = None) →
  guarded h [] (log (call c h)) = true.
Proof.
  intros [Hc | [Hr Hch]].
  - destruct c; try discriminate Hc; destruct h; run;
      repeat (case_match; simplify_eq/=); lock_eval.
  - destruct c; destruct h; simpl in Hr, Hch; subst; run;
      repeat (case_match; simplify_eq/=); lock_eval.
Qed.

Lemma X12_appends_under_lock_witness :
  guarded (helm_with_ReleasesMutex 7%positive)
          [] (log (call (CSyncRelease "app" "charts/app" ["--wait"])
                        (helm_with_ReleasesMutex 7%positive))) = true ∧
  guarded Helm_zero [] (log (call (CReleaseStatus "app" []) Helm_zero)) = true.
Proof.
  split.
  - exact (X12_appends_under_lock (CSyncRelease "app" "charts/app" ["--wait"])
             (helm_with_ReleasesMutex 7%positive) (or_introl eq_refl)).
  - exact (X12_appends_under_lock (CReleaseStatus "app" []) Helm_zero
             (or_intror (conj eq_refl eq_refl))).
Defined.

(** ** Concurrent DiffRelease calls, all in one *)

Lemma mutex_step_prefix (d0 recs : list Release) (i : nat) (s s' : machine) :
  mutex_inv d0 recs s → step true i s = Some s' → diffed s `prefix_of` diffed s'.
Proof.
  intros Hinv Hstep. pose proof (inv_seen _ _ _ Hinv) as Hseen.
  destruct s as [d l gs]. unfold step in Hstep. simpl in *.
  destruct (gs !! i) as [[rec p]|] eqn:Hi; [|done].
  destruct p as [| |seen| |]; simplify_eq/=; try done.
  - by destruct l; simplify_eq/=.
  - rewrite (Hseen _ _ _ Hi). by apply prefix_app_r.
Qed.

Lemma mutex_schedule_prefix (d0 recs : list Release) (order : list nat) (s s' : machine) :
  mutex_inv d0 recs s → schedule true order s = Some s' →
  diffed s `prefix_of` diffed s'.
Proof.
  revert s. induction order as [|i order IH]; intros s Hinv Hs; simpl in Hs.
  - by injection Hs as <-.
  - destruct (step true i s) as [s1|] eqn:Hstep; [|done].
    etrans; [by eapply mutex_step_prefix |].
    eapply IH; [|exact Hs]. by eapply mutex_inv_step.
Qed.

(** X13. N DiffRelease calls run by N goroutines on a double with DiffMutex
    configured, under any interleaving of their steps (lock, load of Diffed,
    store of the appended list, unlock): at every point what Diffed held at
    the start is still there, in place; as long as a call is unfinished some
    goroutine can take a step (no deadlock); and once all are through Diffed
    holds the old entries and the N records, each exactly once, so its length
    has grown by N. *)
Theorem X13_Diff_concurrent (d0 recs : list Release) (order : list nat) (s : machine) :
  schedule true order (start d0 recs) = Some s →
  d0 `prefix_of` diffed s ∧
  (all_finished s = false → ∃ i, is_Some (step true i s)) ∧
  (all_finished s = true →
   diffed s ≡ₚ d0 ++ recs ∧ length (diffed s) = (length d0 + length recs)%nat).
Proof.
  intros Hs. split; [|split].
  - exact (mutex_schedule_prefix _ _ _ _ _ (mutex_inv_start d0 recs) Hs).
  - intros Hfin. by eapply Diff_concurrent_progress.
  - intros Hfin. by eapply Diff_concurrent_length.
Qed.

Lemma X13_Diff_concurrent_witness :
  match schedule true [1; 1; 1; 1; 2; 2; 2; 2; 0; 0; 0; 0]%nat
          (start [mkRelease "old" []]
                 [mkRelease "app" ["--flag"]; mkRelease "db" [];
                  mkRelease "web" ["--detailed-exitcode"]]) with
  | Some s =>
      diffed s ≡ₚ [mkRelease "old" []] ++
                  [mkRelease "app" ["--flag"]; mkRelease "db" [];
                   mkRelease "web" ["--detailed-exitcode"]] ∧
      length (diffed s) = 4%nat
  | None => False
  end.
Proof.
  destruct (schedule true [1; 1; 1; 1; 2; 2; 2; 2; 0; 0; 0; 0]%nat
              (start [mkRelease "old" []]
                     [mkRelease "app" ["--flag"]; mkRelease "db" [];
                      mkRelease "web" ["--detailed-exitcode"]])) as [s|] eqn:Hs.
  - apply (X13_Diff_concurrent _ _ _ _ Hs).
    vm_compute in Hs. injection Hs as <-. reflexivity.
  - vm_compute in Hs. discriminate Hs.
Defined.

(** ** When List and DiffRelease fail *)

(** X14. List returns an error exactly when the expectation map is not nil,
    the (filter, joined flags) key is not registered and FailOnUnexpectedList
    is set. It returns the placeholder exactly when the map is nil or the key
    is registered with that very string: an empty map that is not nil never
    yields the placeholder. *)
Theorem X14_List_failure_and_placeholder
    (h : Helm) (range_keys : list ListKey) (filter : string) (flags : list string) :
  let key := mkListKey filter (Join flags "") in
  let r := result (List range_keys filter flags h) in
  ((∃ s e, r = Returned (s, Some e)) ↔
   ∃ lists, Lists h = Some lists ∧ lists !! key = None ∧
            FailOnUnexpectedList h = true) ∧
  (r = Returned ("dummy non-empty helm-list output", None) ↔
   Lists h = None ∨
   ∃ lists, Lists h = Some lists ∧
            lists !! key = Some "dummy non-empty helm-list output").
Proof.
  intros key r. subst r. rewrite List_result. fold key. cbv zeta.
  destruct (Lists h) as [lists|].
  - destruct (lists !! key) as [res|] eqn:Hk; [|destruct (FailOnUnexpectedList h)].
    + split; split.
      * by intros (s & e & [=]).
      * by intros (lists' & [= <-] & Hmiss & _); rewrite Hk in Hmiss.
      * intros [= ->]. right. by exists lists.
      * intros [[=] | (lists' & [= <-] & Hhit)]. rewrite Hk in Hhit. by injection Hhit as ->.
    + split; split.
      * intros _. by exists lists.
      * intros _. by eexists _, _.
      * by intros [=].
      * intros [[=] | (lists' & [= <-] & Hhit)]. by rewrite Hk in Hhit.
    + split; split.
      * by intros (s & e & [=]).
      * by intros (lists' & _ & _ & [=]).
      * by intros [=].
      * intros [[=] | (lists' & [= <-] & Hhit)]. by rewrite Hk in Hhit.
  - split; split.
    + by intros (s & e & [=]).
    + by intros (lists' & [=] & _).
    + intros _. by left.
    + done.
Qed.

(** X15. DiffRelease returns an error exactly when the expectation map is not
    nil and either the (name, chart, joined flags) key is registered with an
    error or it is not registered and FailOnUnexpectedDiff is set. A key
    registered with nil succeeds in strict mode too, and without strict mode a
    missing key is answered like one registered with nil. *)
Theorem X15_DiffRelease_failure
    (h : Helm) (name chart : string) (suppressDiff : bool) (flags : list string) :
  let key := mkDiffKey name chart (Join flags "") in
  let r := result (DiffRelease name chart suppressDiff flags h) in
  ((∃ e, r = Returned (Some e)) ↔
   ∃ diffs, Diffs h = Some diffs ∧
            ((∃ e, diffs !! key = Some (Some e)) ∨
             (diffs !! key = None ∧ FailOnUnexpectedDiff h = true))) ∧
  (r = Returned None ↔
   Diffs h = None ∨
   ∃ diffs, Diffs h = Some diffs ∧
            (diffs !! key = Some None ∨
             (diffs !! key = None ∧ FailOnUnexpectedDiff h = false))).
Proof.
  intros key r. subst r. rewrite DiffRelease_result. fold key. cbv zeta.
  destruct (Diffs h) as [diffs|].
  - destruct (diffs !! key) as [[e|]|] eqn:Hk; [| |destruct (FailOnUnexpectedDiff h)];
      (split; split);
      try (by intros (? & [=]));
      try (by intros [=]);
      try (intros _; by eauto 10);
      try (intros [= ->]; by eauto 10);
      try (intros (diffs' & [= <-] & [[e' He'] | [He' Hs]]); congruence);
      try (intros [[=] | (diffs' & [= <-] & [He' | [He' Hs]])]; congruence).
  - split; split;
      try (by intros (? & [=]));
      try (by intros (? & [=] & _));
      try (intros _; by eauto);
      done.
Qed.

(** ** The printed form of a list key *)

Lemma append_empty_l (a : string) : "" +:+ a = a.
Proof. reflexivity. Qed.

Lemma append_cancel_paren (a b : string) : a +:+ ")" = b +:+ ")" → a = b.
Proof.
  revert b. induction a as [|x a IH]; intros [|y b] H.
  - done.
  - rewrite append_empty_l, append_cons in H. injection H as _ H. by destruct b.
  - rewrite append_empty_l, append_cons in H. injection H as _ H. by destruct a.
  - rewrite !append_cons in H. injection H as -> H. f_equal. by apply IH.
Qed.

Lemma comma_free_cons (x : ascii) (a : string) :
  comma_free (String x a) = true → x ≠ ","%char ∧ comma_free a = true.
Proof.
  unfold comma_free. simpl. intros [Hx Ha]%andb_true_iff. split; [|done].
  intros ->. done.
Qed.

Lemma split_at_comma (a b r r' : string) :
  comma_free a = true → comma_free b = true →
  a +:+ "," +:+ r = b +:+ "," +:+ r' → a = b ∧ r = r'.
Proof.
  revert b. induction a as [|x a IH]; intros [|y b] Ha Hb H.
  - rewrite !append_empty_l, !append_cons, !append_empty_l in H. by injection H as ->.
  - rewrite append_empty_l, !append_cons in H. injection H as <- _.
    by apply comma_free_cons in Hb as [Hb _].
  - rewrite append_empty_l, !append_cons in H. injection H as -> _.
    by apply comma_free_cons in Ha as [Ha _].
  - rewrite !append_cons in H. injection H as -> H.
    apply comma_free_cons in Ha as [_ Ha]. apply comma_free_cons in Hb as [_ Hb].
    by destruct (IH b Ha Hb H) as [-> ->].
Qed.

(** X16. The printed form of a list key, as it appears in the error of List,
    tells the key: two keys whose filters hold no comma print the same only
    if they are the same key. *)
Theorem X16_ListKey_String_injective (k k' : ListKey) :
  comma_free (lk_Filter k) = true → comma_free (lk_Filter k') = true →
  ListKey_String k = ListKey_String k' → k = k'.
Proof.
  destruct k as [f g], k' as [f' g']. unfold ListKey_String. simpl.
  intros Hf Hf' H. apply (inj (String.append "listkey(filter=")) in H.
  change (f +:+ "," +:+ ("flags=" +:+ g +:+ ")")
          = f' +:+ "," +:+ ("flags=" +:+ g' +:+ ")")) in H.
  apply split_at_comma in H as [-> H]; [|done..].
  apply (inj (String.append "flags=")) in H.
  by apply append_cancel_paren in H as ->.
Qed.

Lemma X16_ListKey_String_injective_witness :
  mkListKey "^app$" ("--kube-context" +:+ "default")
  = mkListKey "^app$" "--kube-contextdefault".
Proof.
  exact (X16_ListKey_String_injective
           (mkListKey "^app$" ("--kube-context" +:+ "default"))
           (mkListKey "^app$" "--kube-contextdefault") eq_refl eq_refl eq_refl).
Defined.

(** Without the condition two keys can print the same. *)
Example ListKey_String_ambiguous :
  ListKey_String (mkListKey "a,flags=b" "c") = ListKey_String (mkListKey "a" "b,flags=c").
Proof. reflexivity. Qed.
